(** * wiex: Windows Invoke Expression for WSL2

    A shallow embedding of [src/index.ts] and the properties of its
    invocation life cycle.

    The program is event driven: [wiex] runs synchronously, spawns two
    child processes, registers listeners on them and returns; everything
    else happens later, when the Node event loop delivers the children's
    events to those listeners.  The embedding therefore has three layers:

    - [JS]: the few pieces of JavaScript semantics the source leans on
      (truthiness, template literals, strict comparison with [null],
      [Array.prototype.reduce] over an array the callback mutates);
    - the host process as an explicit state ([host]): [process.env],
      [process.exitCode], [process.exit], the logger calls, the calls to
      [child_process.spawn], the listeners and pipes registered so far,
      and the promises allocated so far;
    - [wiex] and [Cli.parse] themselves as state-passing functions, and
      [run], the event loop that delivers events to the listeners.

    The host's side of [spawn] is an input: each call of [wiex] is given
    what the host answers to its two [spawn] calls ([launch]), and the
    events the children emit afterwards are the steps of [run].

    Left out: the bytes of the help text, the logger that [cli] builds on
    an [EventEmitter] (here the logger records its calls in [logged]), and
    what Node does with a rejected promise that nobody handles, which
    depends on its version. *)

From Stdlib Require Import ZArith String DecimalString.
From stdpp Require Import gmap strings list fin_maps.

(** ** JavaScript semantics used by the source *)

Module JS.

(** [!v] is [negb (truthy v)].  A [string | undefined] is truthy when it
    is a non-empty string, a [boolean | undefined] when it is [true]. *)
Definition truthy_string (v : option string) : bool :=
  match v with
  | Some EmptyString => false
  | Some (String _ _) => true
  | None => false
  end.

Definition truthy_boolean (v : option bool) : bool :=
  match v with
  | Some b => b
  | None => false
  end.

(** A template literal [`${v}`] converts [v] with [ToString]:
    [undefined] becomes the nine characters of its name, an integer (a
    [pid]) its decimal digits. *)
Definition string_of_string (v : option string) : string :=
  match v with
  | Some s => s
  | None => "undefined"
  end.

Definition string_of_integer (z : Z) : string :=
  NilZero.string_of_int (Z.to_int z).

Definition string_of_number (v : option Z) : string :=
  match v with
  | Some z => string_of_integer z
  | None => "undefined"
  end.

(** [code === null || code > 0] on a [number | null]; [None] is [null]. *)
Definition null_or_positive (code : option Z) : bool :=
  match code with
  | None => true
  | Some c => (0 <? c)%Z
  end.

(** [Array.prototype.reduce (callback, initial)].  The length is read
    once, before the loop; at each index [k] below it the callback runs
    only when the array still has a property [k], and it receives the
    array itself, which it may mutate. *)
Fixpoint reduce_from {A B : Type}
    (callback : B -> A -> nat -> list A -> B * list A)
    (remaining k : nat) (arr : list A) (acc : B) : B :=
  match remaining with
  | O => acc
  | S remaining' =>
      match arr !! k with
      | Some x =>
          let '(acc', arr') := callback acc x k arr in
          reduce_from callback remaining' (S k) arr' acc'
      | None => reduce_from callback remaining' (S k) arr acc
      end
  end.

Definition reduce {A B : Type}
    (callback : B -> A -> nat -> list A -> B * list A)
    (arr : list A) (initial : B) : B :=
  reduce_from callback (length arr) 0 arr initial.

End JS.

(** ** Data model *)

(** The three operations of the [Logger] type. *)
Inductive level := Info | Warn | Error.

#[global] Instance level_eq_dec : EqDecision level.
Proof. solve_decision. Defined.

(** [WiexOptions]: every field is optional. *)
Record WiexOptions := {
  version : option bool;
  strict : option bool;
  verbose : option bool;
  help : option bool
}.

(** The first parameter of [wiex]. *)
Record Invocation := {
  command : string;
  commandArgs : option (list string)
}.

(** One call [spawn (file, args, { env })]; [None] is an argument that
    was not passed. *)
Record spawn_call := {
  file : string;
  args : option (list string);
  env : option (gmap string string)
}.

(** What the host answers to a [spawn] call: it throws, or it returns a
    child object whose [pid] is a number or [undefined]. *)
Inductive launch := Throws | Launched (pid : option Z).

Inductive std_stream := stdout | stderr.

#[global] Instance std_stream_eq_dec : EqDecision std_stream.
Proof. solve_decision. Defined.

(** The two sinks the caller hands to [wiex]. *)
Inductive sink := outStream | errStream.

(** Events a child process object emits; [None] is a [null] code. *)
Inductive event :=
| Close (code : option Z)
| Exit (code : option Z)
| Failure
| Disconnect
| Data (s : std_stream) (chunk : string).

Definition event_name (ev : event) : string :=
  match ev with
  | Close _ => "close"
  | Exit _ => "exit"
  | Failure => "error"
  | Disconnect => "disconnect"
  | Data _ _ => "data"
  end.

Inductive settlement := Pending | Resolved | Rejected.

(** The listeners [wiex] registers, with the variables each closes over. *)
Inductive listener :=
| where_close (commandNotExistErrorMessage : string)
| where_error (commandNotExistErrorMessage : string)
| proc_exit (strict : option bool)
| proc_disconnect (strict : option bool) (pid : option Z)
| proc_close (verbose : option bool) (pid : option Z).

(** The host process.  A child is named by the index of the [spawn] call
    that created it, a promise by its index in [promises]. *)
Record host := {
  process_env : gmap string string;
  process_exitCode : option Z;
  process_exited : option Z;
  logged : list (level * string);
  spawns : list (spawn_call * launch);
  listeners : list (nat * string * listener);
  pipes : list (nat * std_stream * sink);
  written : list (sink * string);
  promises : list settlement
}.

(** A freshly started process with environment [e]. *)
Definition boot (e : gmap string string) : host :=
  {| process_env := e; process_exitCode := None; process_exited := None;
     logged := []; spawns := []; listeners := []; pipes := [];
     written := []; promises := [] |}.

(** ** Host primitives *)

Definition log (l : level) (message : string) (h : host) : host :=
  {| process_env := process_env h; process_exitCode := process_exitCode h;
     process_exited := process_exited h;
     logged := logged h ++ [(l, message)];
     spawns := spawns h; listeners := listeners h; pipes := pipes h;
     written := written h; promises := promises h |}.

(** [process.exitCode = code] *)
Definition set_exitCode (code : Z) (h : host) : host :=
  {| process_env := process_env h; process_exitCode := Some code;
     process_exited := process_exited h; logged := logged h;
     spawns := spawns h; listeners := listeners h; pipes := pipes h;
     written := written h; promises := promises h |}.

(** [process.exit (status)]: the process is gone, with that status. *)
Definition process_exit (status : Z) (h : host) : host :=
  {| process_env := process_env h; process_exitCode := process_exitCode h;
     process_exited := Some status; logged := logged h;
     spawns := spawns h; listeners := listeners h; pipes := pipes h;
     written := written h; promises := promises h |}.

(** [spawn (...)]: the call is recorded with the host's answer; a child
    object, when there is one, is the index of the call and its [pid]. *)
Definition spawn (c : spawn_call) (answer : launch) (h : host)
    : host * option (nat * option Z) :=
  let h' :=
    {| process_env := process_env h; process_exitCode := process_exitCode h;
       process_exited := process_exited h; logged := logged h;
       spawns := spawns h ++ [(c, answer)];
       listeners := listeners h; pipes := pipes h;
       written := written h; promises := promises h |} in
  match answer with
  | Throws => (h', None)
  | Launched pid => (h', Some (length (spawns h), pid))
  end.

(** [child.on (name, l)] *)
Definition on (child : nat) (name : string) (l : listener) (h : host) : host :=
  {| process_env := process_env h; process_exitCode := process_exitCode h;
     process_exited := process_exited h; logged := logged h;
     spawns := spawns h;
     listeners := listeners h ++ [(child, name, l)];
     pipes := pipes h; written := written h; promises := promises h |}.

(** [child.stdout.pipe (target)], [child.stderr.pipe (target)] *)
Definition pipe (child : nat) (s : std_stream) (target : sink) (h : host)
    : host :=
  {| process_env := process_env h; process_exitCode := process_exitCode h;
     process_exited := process_exited h; logged := logged h;
     spawns := spawns h; listeners := listeners h;
     pipes := pipes h ++ [(child, s, target)];
     written := written h; promises := promises h |}.

Definition write (target : sink) (chunk : string) (h : host) : host :=
  {| process_env := process_env h; process_exitCode := process_exitCode h;
     process_exited := process_exited h; logged := logged h;
     spawns := spawns h; listeners := listeners h; pipes := pipes h;
     written := written h ++ [(target, chunk)]; promises := promises h |}.

(** A new promise in state [s]; its index is returned. *)
Definition new_promise (s : settlement) (h : host) : host * nat :=
  ({| process_env := process_env h; process_exitCode := process_exitCode h;
      process_exited := process_exited h; logged := logged h;
      spawns := spawns h; listeners := listeners h; pipes := pipes h;
      written := written h; promises := promises h ++ [s] |},
   length (promises h)).

(** Settling promise [p]. *)
Definition settle (p : nat) (s : settlement) (h : host) : host :=
  {| process_env := process_env h; process_exitCode := process_exitCode h;
     process_exited := process_exited h; logged := logged h;
     spawns := spawns h; listeners := listeners h; pipes := pipes h;
     written := written h; promises := <[p := s]> (promises h) |}.

(** ** [wiex] (index.ts, lines 38 to 93) *)

(** Line 43: [errorIfStrictOrWarn] is [_logger.error] when [strict] is
    truthy and [_logger.warn] otherwise. *)
Definition errorIfStrictOrWarn (strict : option bool) : level :=
  if JS.truthy_boolean strict then Error else Warn.

(** Line 44: [rejectIfStrictOrResolve ()] returns [Promise.reject ()]
    when [strict] is truthy and [Promise.resolve ()] otherwise: a new
    promise each time, which the listeners drop. *)
Definition rejectIfStrictOrResolve (strict : option bool) (h : host) : host :=
  fst (new_promise (if JS.truthy_boolean strict then Rejected else Resolved) h).

Definition WIEX_PATH_warning : string :=
  "$WIEX_PATH is not set, so wiex not expand $PATH".

(** Line 51 *)
Definition commandNotExistErrorMessage (command : string) : string :=
  "Error: " +:+ command +:+ " not found".

(** Line 53: the call that looks the command up. *)
Definition where_call (command : string) : spawn_call :=
  {| file := "where " +:+ command; args := None; env := None |}.

(** Line 69: the environment handed to the child,
    [{ ...process.env, PATH: `${PATH}:${WIEX_PATH}` }], from the
    environment [e] at that line and the two values read at line 46. *)
Definition proc_env (e : gmap string string) (PATH WIEX_PATH : option string)
    : gmap string string :=
  <["PATH" := JS.string_of_string PATH +:+ ":"
              +:+ JS.string_of_string WIEX_PATH]> e.

Definition proc_call (r : Invocation) (e : gmap string string)
    (PATH WIEX_PATH : option string) : spawn_call :=
  {| file := command r; args := commandArgs r;
     env := Some (proc_env e PATH WIEX_PATH) |}.

(** The listeners, run on the event they are registered for. *)
Definition run_listener (l : listener) (ev : event) (h : host) : host :=
  match l with
  | where_close message =>
      match ev with
      | Close code =>
          if JS.null_or_positive code
          then process_exit 1 (log Error message h)
          else h
      | _ => h
      end
  | where_error message => process_exit 1 (log Error message h)
  | proc_exit strict =>
      match ev with
      | Exit (Some code) => fst (new_promise Resolved (set_exitCode code h))
      | Exit None =>
          rejectIfStrictOrResolve strict
            (log (errorIfStrictOrWarn strict) "exit code is unknown" h)
      | _ => h
      end
  | proc_disconnect strict pid =>
      rejectIfStrictOrResolve strict
        (log (errorIfStrictOrWarn strict)
           ("process " +:+ JS.string_of_number pid +:+ " disconnected.") h)
  | proc_close verbose pid =>
      if JS.truthy_boolean verbose
      then log Info ("process " +:+ JS.string_of_number pid +:+ " closed.") h
      else h
  end.

(** The body of the async function.  Its promise is allocated at the call
    and settled when the body completes: resolved when it runs to its end,
    rejected when it throws; it stays pending when [process.exit] ends the
    process first.  The result is the host afterwards and the promise. *)
Definition wiex (r : Invocation) (o : WiexOptions) (lookup child : launch)
    (h : host) : host * nat :=
  let '(h, returned) := new_promise Pending h in
  let WIEX_PATH := process_env h !! "WIEX_PATH" in
  let PATH := process_env h !! "PATH" in
  let h := if negb (JS.truthy_string WIEX_PATH)
           then log Warn WIEX_PATH_warning h else h in
  let message := commandNotExistErrorMessage (command r) in
  match spawn (where_call (command r)) lookup h with
  | (h, None) =>
      (process_exit 1 (log Error message h), returned)
  | (h, Some (where_, _)) =>
      let h := on where_ "close" (where_close message) h in
      let h := on where_ "error" (where_error message) h in
      match spawn (proc_call r (process_env h) PATH WIEX_PATH) child h with
      | (h, None) => (settle returned Rejected h, returned)
      | (h, Some (proc, pid)) =>
          let h := pipe proc stdout outStream h in
          let h := pipe proc stderr errStream h in
          let h := on proc "exit" (proc_exit (strict o)) h in
          let h := on proc "disconnect" (proc_disconnect (strict o) pid) h in
          let h := on proc "close" (proc_close (verbose o) pid) h in
          (settle returned Resolved h, returned)
      end
  end.

(** ** The event loop *)

Fixpoint listeners_for (child : nat) (name : string)
    (ls : list (nat * string * listener)) : list listener :=
  match ls with
  | [] => []
  | (c, n, l) :: ls' =>
      if bool_decide (c = child /\ n = name)
      then l :: listeners_for child name ls'
      else listeners_for child name ls'
  end.

(** The listeners of one event are called in the order they were
    registered; nothing runs once [process.exit] has been called. *)
Fixpoint call_listeners (ls : list listener) (ev : event) (h : host) : host :=
  match ls with
  | [] => h
  | l :: ls' =>
      match process_exited h with
      | Some _ => h
      | None => call_listeners ls' ev (run_listener l ev h)
      end
  end.

Fixpoint forward (child : nat) (s : std_stream) (chunk : string)
    (ps : list (nat * std_stream * sink)) (h : host) : host :=
  match ps with
  | [] => h
  | (c, s', target) :: ps' =>
      if bool_decide (c = child /\ s' = s)
      then forward child s chunk ps' (write target chunk h)
      else forward child s chunk ps' h
  end.

(** Child [child] emits [ev].  Only a child object the host returned can
    emit.  A chunk of data is forwarded along the pipes of its stream; any
    other event goes to its listeners; an ["error"] event nobody listens
    to is thrown by the emitter, and the uncaught exception ends the
    process with status 1. *)
Definition emit (child : nat) (ev : event) (h : host) : host :=
  match spawns h !! child with
  | Some (_, Launched _) =>
      match ev with
      | Data s chunk => forward child s chunk (pipes h) h
      | _ =>
          match listeners_for child (event_name ev) (listeners h), ev with
          | [], Failure => process_exit 1 h
          | ls, _ => call_listeners ls ev h
          end
      end
  | _ => h
  end.

(** What the process does, one turn of the event loop at a time: the
    caller invokes [wiex], or a child emits an event.  An exited process
    does nothing further. *)
Inductive step :=
| Call (r : Invocation) (o : WiexOptions) (lookup child : launch)
| Emit (child : nat) (ev : event).

Definition do_step (h : host) (s : step) : host :=
  match process_exited h with
  | Some _ => h
  | None =>
      match s with
      | Call r o lookup child => fst (wiex r o lookup child h)
      | Emit child ev => emit child ev h
      end
  end.

Definition run (steps : list step) (h : host) : host :=
  fold_left do_step steps h.

(** ** [cli] (index.ts, lines 95 to 139): the argument parser *)

Module Cli.

(** Line 19 *)
Definition WIEX_OPTIONS : gset string :=
  {[ "--version"; "--strict"; "--verbose"; "--help" ]}.

(** The accumulator of the [reduce]: an object with three optional
    properties; [wiexArgs] is itself an object, used as a map from
    property names to booleans. *)
Record parsed := {
  wiexArgs : option (gmap string bool);
  command : option string;
  commandArgs : option (list string)
}.

(** Lines 98 to 105.  The callback reads only [wiexArgs] from the
    accumulator.  [args] is the array [slice]d from [process.argv];
    [arr] is the copy [[...args]] being reduced, which [arr.splice (1)]
    cuts down to its first element. *)
Definition callback (args : list string) (acc : parsed) (arg : string)
    (index : nat) (arr : list string) : parsed * list string :=
  if bool_decide (arg ∈ WIEX_OPTIONS)
  then ({| wiexArgs := Some (<[arg := true]> (default ∅ (wiexArgs acc)));
           command := None; commandArgs := None |}, arr)
  else ({| wiexArgs := wiexArgs acc; command := Some arg;
           commandArgs := Some (drop (S index) args) |}, take 1 arr).

Definition parse_args (args : list string) : parsed :=
  JS.reduce (callback args) args
    {| wiexArgs := None; command := None; commandArgs := None |}.

(** Line 96: [process.argv.slice (2)] *)
Definition parse (argv : list string) : parsed :=
  parse_args (drop 2 argv).

End Cli.

(** ** Vocabulary of the properties *)

(** [grows h h']: from [h] to [h'] the environment is untouched, and the
    log, the spawn calls, the listeners and the promises have only been
    appended to; every listener added since is on a child spawned since. *)
Definition grows (h h' : host) : Prop :=
  process_env h' = process_env h /\
  (exists ls, logged h' = logged h ++ ls) /\
  (exists ps, promises h' = promises h ++ ps) /\
  (exists sp, spawns h' = spawns h ++ sp) /\
  (exists ls, listeners h' = listeners h ++ ls /\
     Forall (fun x => length (spawns h) <= x.1.1 < length (spawns h')) ls).

(** The log lines of lines 47 to 49. *)
Definition WIEX_PATH_check (e : gmap string string) : list (level * string) :=
  if negb (JS.truthy_string (e !! "WIEX_PATH"))
  then [(Warn, WIEX_PATH_warning)] else [].

(** The number of log lines with a given level and text. *)
Definition lines_with (l : level) (text : string)
    (ls : list (level * string)) : nat :=
  length (filter (fun x => x = (l, text)) ls).

(** [quiet h h']: no [$WIEX_PATH] warning is logged from [h] to [h']. *)
Definition quiet (h h' : host) : Prop :=
  exists new, logged h' = logged h ++ new /\
              lines_with Warn WIEX_PATH_warning new = 0%nat.

(** The turns in which children emit the given events, in order. *)
Definition emits (events : list (nat * event)) : list step :=
  map (fun x => Emit x.1 x.2) events.

(** [same_children h h']: from [h] to [h'] neither the environment nor
    the list of [spawn] calls has changed. *)
Definition same_children (h h' : host) : Prop :=
  process_env h' = process_env h /\ spawns h' = spawns h.

(** Every [spawn] call so far either passes no environment (the lookup) or
    passes the child environment of line 69 built from [e]. *)
Definition derived_from (e : gmap string string) (h : host) : Prop :=
  process_env h = e /\
  Forall (fun x : spawn_call * launch =>
            env x.1 = None \/
            env x.1 = Some (proc_env e (e !! "PATH") (e !! "WIEX_PATH")))
         (spawns h).

(** The ways the host reports that the lookup did not resolve the
    command: the lookup process closes with a null status or with a
    non-zero one (an exit status is never negative), or it emits
    ["error"] because it could not be launched. *)
Inductive lookup_failed : event -> Prop :=
| null_status : lookup_failed (Close None)
| nonzero_status c : (0 <= c)%Z -> c <> 0%Z -> lookup_failed (Close (Some c))
| launch_failed : lookup_failed Failure.

(** The accumulator after the flags [flags] have been reduced. *)
Definition after_flags (acc : Cli.parsed) (flags : list string) : Cli.parsed :=
  foldl (fun a flag =>
           {| Cli.wiexArgs :=
                Some (<[flag := true]> (default ∅ (Cli.wiexArgs a)));
              Cli.command := None; Cli.commandArgs := None |})
        acc flags.

(** ** A running example *)

Definition example_env : gmap string string :=
  <["WIEX_PATH" := "/mnt/c/Users/alice/.cargo/bin"]>
    (<["PATH" := "/usr/bin"]> (<["HOME" := "/home/alice"]> ∅)).

Definition example_env_without_WIEX_PATH : gmap string string :=
  <["PATH" := "/usr/bin"]> (<["HOME" := "/home/alice"]> ∅).

Definition cargo : Invocation :=
  {| command := "cargo.exe"; commandArgs := Some ["--version"] |}.

Definition lenient : WiexOptions :=
  {| version := None; strict := None; verbose := None; help := None |}.

Definition strict_verbose : WiexOptions :=
  {| version := None; strict := Some true; verbose := Some true;
     help := None |}.

(** ** [cli] (index.ts, lines 107 to 139): after the parser *)

(** Line 21: [version] is read from [package.json], which is not part of
    the source at hand; it is a parameter of [cli] below. *)

Definition tab : string := String (Ascii.ascii_of_nat 9) EmptyString.
Definition newline : string := String (Ascii.ascii_of_nat 10) EmptyString.

(** Lines 23 to 36: the lines of the template literal, each ended by a
    line feed; the backslash after the opening quote continues the line. *)
Definition helpText : string :=
  String.concat newline
    [ "wiex: Windows Invoke Expression for WSL2";
      EmptyString;
      "wiex invoke given windows .exe command by expanding $PATH with $WIEX_PATH";
      EmptyString;
      "Usage:";
      tab +:+ "wiex [wiex options] [.exe command] [.exe options]";
      EmptyString;
      "Options:";
      tab +:+ "--version" +:+ tab +:+ "Print version info and exit";
      tab +:+ "--strict" +:+ tab +:+ "Raise error severity level";
      tab +:+ "--verbose" +:+ tab +:+ "Print info log";
      tab +:+ "--help" +:+ tab +:+ tab +:+ "Print help information";
      EmptyString ].

Inductive console_method := console_log | console_warn | console_error.

(** Lines 117 to 132: each operation of the logger emits on [logEmitter],
    whose listener prints the message with the [console] method of the
    same name ([console.log] for [info]).  [wiex] passes no [trace]. *)
Definition console_of (line : level * string) : console_method * string :=
  match line with
  | (Info, message) => (console_log, message)
  | (Warn, message) => (console_warn, message)
  | (Error, message) => (console_error, message)
  end.

(** What [wiex] destructures, by the names [strict] and [verbose], from
    the object [cli] hands it as options ([{}] when it is [undefined]). *)
Definition destructure (wiexArgs : option (gmap string bool)) : WiexOptions :=
  {| version := wiexArgs ≫= (.!! "version");
     strict := wiexArgs ≫= (.!! "strict");
     verbose := wiexArgs ≫= (.!! "verbose");
     help := wiexArgs ≫= (.!! "help") |}.

(** Lines 95 to 139, in a process started with environment [e].  The
    result is what [cli] itself prints with [console.log] and the host when
    the turn ends, after the [catch] handler has had its chance to run.
    [process.exit ()] exits with [process.exitCode], or 0 when it is unset.
    [thrown] is what [console.error] shows of the error a throwing [spawn]
    of the target rejects the call with.  The promise [catch] returns is
    dropped; it resolves when the call does. *)
Definition cli (version : string) (argv : list string)
    (lookup child : launch) (thrown : string) (e : gmap string string)
    : list (console_method * string) * host :=
  let h := boot e in
  let p := Cli.parse argv in
  if JS.truthy_boolean (Cli.wiexArgs p ≫= (.!! "version"))
  then ([(console_log, "v" +:+ version)], process_exit 0 h)
  else
    match JS.truthy_boolean (Cli.wiexArgs p ≫= (.!! "help")), Cli.command p with
    | false, Some command =>
        let '(h, returned) :=
          wiex {| command := command; commandArgs := Cli.commandArgs p |}
            (destructure (Cli.wiexArgs p)) lookup child h in
        match process_exited h with
        | Some _ => ([], h)
        | None =>
            let '(h, caught) := new_promise Pending h in
            match promises h !! returned with
            | Some Rejected => ([], process_exit 1 (log Error thrown h))
            | Some Resolved => ([], settle caught Resolved h)
            | _ => ([], h)
            end
        end
    | _, _ =>
        ([(console_log, helpText)],
         process_exit (default 0%Z (process_exitCode h)) h)
    end.

(** Everything printed through [console]: by [cli] itself, then by the
    logger. *)
Definition console (printed : list (console_method * string)) (h : host)
    : list (console_method * string) :=
  printed ++ map console_of (logged h).

(** ** More vocabulary *)

(** The sinks the pipes [ps] lead to from stream [s] of child [child]. *)
Fixpoint targets (child : nat) (s : std_stream)
    (ps : list (nat * std_stream * sink)) : list sink :=
  match ps with
  | [] => []
  | (c, s', target) :: ps' =>
      if bool_decide (c = child /\ s' = s)
      then target :: targets child s ps'
      else targets child s ps'
  end.

(** [pipes_grow h h']: from [h] to [h'] pipes have only been added, and
    only on children spawned since. *)
Definition pipes_grow (h h' : host) : Prop :=
  (length (spawns h) <= length (spawns h'))%nat /\
  exists ps, pipes h' = pipes h ++ ps /\
    Forall (fun x => length (spawns h) <= x.1.1 < length (spawns h')) ps.

(** What the sinks receive of one event of a target child. *)
Definition relayed (ev : event) : option (sink * string) :=
  match ev with
  | Data stdout chunk => Some (outStream, chunk)
  | Data stderr chunk => Some (errStream, chunk)
  | _ => None
  end.

(** The parser in the words of the usage line: the tokens are tool flags
    up to the first token that is not one; that token is the command and
    the tokens after it are its arguments. *)
Fixpoint leading_flags (args : list string) : list string :=
  match args with
  | [] => []
  | a :: args' =>
      if bool_decide (a ∈ Cli.WIEX_OPTIONS) then a :: leading_flags args'
      else []
  end.

Fixpoint after_leading_flags (args : list string) : list string :=
  match args with
  | [] => []
  | a :: args' =>
      if bool_decide (a ∈ Cli.WIEX_OPTIONS) then after_leading_flags args'
      else args
  end.

Definition usage (args : list string) : Cli.parsed :=
  {| Cli.wiexArgs :=
       match leading_flags args with
       | [] => None
       | flags => Some (gset_to_gmap true (list_to_set flags))
       end;
     Cli.command := head (after_leading_flags args);
     Cli.commandArgs :=
       match after_leading_flags args with
       | [] => None
       | _ :: rest => Some rest
       end |}.

Definition no_options : WiexOptions :=
  {| version := None; strict := None; verbose := None; help := None |}.

(** * Properties *)

(** ** How a turn of the event loop changes the host *)

(** Unfolding the host primitives down to the record. *)
Ltac host_fields :=
  cbv beta iota zeta delta
    [wiex rejectIfStrictOrResolve process_exit log set_exitCode on pipe write
     settle new_promise spawn fst snd process_env process_exitCode
     process_exited logged spawns listeners pipes written promises].

(** Goals [grows h h'] where [h'] is [h] with fields appended to. *)
Ltac grows_fields :=
  unfold grows; simpl; repeat split;
  first [ done
        | by eexists
        | by exists []; rewrite ?app_nil_r
        | by exists []; rewrite ?app_nil_r; split; [| constructor] ].

Lemma grows_refl h : grows h h.
Proof. grows_fields. Qed.

Lemma grows_trans h1 h2 h3 : grows h1 h2 -> grows h2 h3 -> grows h1 h3.
Proof.
  intros (E1 & [l1 L1] & [p1 P1] & [s1 S1] & [k1 [K1 F1]])
         (E2 & [l2 L2] & [p2 P2] & [s2 S2] & [k2 [K2 F2]]).
  repeat split.
  - congruence.
  - exists (l1 ++ l2). by rewrite L2, L1, <- app_assoc.
  - exists (p1 ++ p2). by rewrite P2, P1, <- app_assoc.
  - exists (s1 ++ s2). by rewrite S2, S1, <- app_assoc.
  - exists (k1 ++ k2). split; [by rewrite K2, K1, <- app_assoc |].
    apply Forall_app; split.
    + eapply Forall_impl; [exact F1 |]. intros x Hx. simpl in *.
      rewrite S2, length_app. lia.
    + eapply Forall_impl; [exact F2 |]. intros x Hx. simpl in *.
      rewrite S1, length_app in Hx. lia.
Qed.

Lemma run_listener_grows l ev h : grows h (run_listener l ev h).
Proof.
  destruct l as [m | m | s | s pid | v pid]; simpl.
  - destruct ev as [code | | | |]; try apply grows_refl.
    destruct (JS.null_or_positive code); grows_fields.
  - grows_fields.
  - destruct ev as [| [code |] | | |]; grows_fields.
  - grows_fields.
  - destruct (JS.truthy_boolean v); grows_fields.
Qed.

Lemma call_listeners_grows ls ev h : grows h (call_listeners ls ev h).
Proof.
  revert h. induction ls as [| l ls IH]; intros h; simpl.
  - apply grows_refl.
  - destruct (process_exited h); [apply grows_refl |].
    eapply grows_trans; [apply run_listener_grows | apply IH].
Qed.

Lemma forward_grows child s chunk ps h : grows h (forward child s chunk ps h).
Proof.
  revert h. induction ps as [| [[c s'] t] ps IH]; intros h; simpl.
  - apply grows_refl.
  - case_bool_decide; [| apply IH].
    eapply grows_trans; [| apply IH]. grows_fields.
Qed.

Lemma emit_grows child ev h : grows h (emit child ev h).
Proof.
  unfold emit. destruct (spawns h !! child) as [[c [| pid]] |];
    try apply grows_refl.
  destruct ev; try apply forward_grows;
    simpl; destruct (listeners_for _ _ _) as [| l ls];
    try apply (call_listeners_grows (l :: ls)); grows_fields.
Qed.

Lemma spawn_grows c answer h : grows h (spawn c answer h).1.
Proof. destruct answer; grows_fields. Qed.

Lemma wiex_grows r o lookup child h : grows h (wiex r o lookup child h).1.
Proof.
  unfold wiex, new_promise.
  destruct (negb _), lookup as [| pw], child as [| pp]; simpl;
    unfold grows; simpl;
    rewrite ?insert_app_r_alt, ?Nat.sub_diag, <- ?app_assoc by lia; simpl;
    repeat split; try done; try (by eexists);
    try (by exists []; rewrite app_nil_r);
    (eexists; split; [done |]);
    repeat (constructor; simpl; rewrite ?length_app; try lia).
Qed.

Lemma do_step_grows h s : grows h (do_step h s).
Proof.
  unfold do_step. destruct (process_exited h); [apply grows_refl |].
  destruct s; [apply wiex_grows | apply emit_grows].
Qed.

Lemma run_grows steps h : grows h (run steps h).
Proof.
  revert h. induction steps as [| s steps IH]; intros h; simpl.
  - apply grows_refl.
  - eapply grows_trans; [apply do_step_grows | apply IH].
Qed.

Lemma run_app a b h : run (a ++ b) h = run b (run a h).
Proof. apply fold_left_app. Qed.

Lemma run_cons s steps h : run (s :: steps) h = run steps (do_step h s).
Proof. done. Qed.

Lemma run_exited steps h n : process_exited h = Some n -> run steps h = h.
Proof.
  intros E. unfold run. induction steps as [| s steps IH]; simpl; [done |].
  replace (do_step h s) with h; [done |]. unfold do_step. by rewrite E.
Qed.

Lemma live_before steps h :
  process_exited (run steps h) = None -> process_exited h = None.
Proof.
  destruct (process_exited h) as [n |] eqn:E; [| done].
  by rewrite (run_exited steps h n E), E.
Qed.

(** *** Children keep the listeners they were given *)

Lemma listeners_for_app child name l1 l2 :
  listeners_for child name (l1 ++ l2)
  = listeners_for child name l1 ++ listeners_for child name l2.
Proof.
  induction l1 as [| [[c n] l] l1 IH]; simpl; [done |].
  case_bool_decide; simpl; by rewrite IH.
Qed.

(** Deciding, listener by listener, which of a given list are on a child
    and an event. *)
Ltac pick_listeners :=
  repeat (let E := fresh "E" in
    case_bool_decide as E;
    [ try (exfalso; destruct E as [? ?]; first [lia | congruence])
    | try (exfalso; apply E; split; [lia | done]) ]);
  try done.

Lemma listeners_for_other child name ls :
  Forall (fun x : nat * string * listener => x.1.1 <> child) ls ->
  listeners_for child name ls = [].
Proof.
  intros F. induction F as [| [[c n] l] ls Hc F IH]; simpl; [done |].
  simpl in Hc. case_bool_decide as E; [by destruct E | done].
Qed.

Lemma grows_listeners_for h h' child name :
  grows h h' -> (child < length (spawns h))%nat ->
  listeners_for child name (listeners h')
  = listeners_for child name (listeners h).
Proof.
  intros (_ & _ & _ & _ & ls & -> & F) Hc.
  rewrite listeners_for_app, (listeners_for_other _ _ ls), app_nil_r; [done |].
  eapply Forall_impl; [exact F |]. simpl. lia.
Qed.

Lemma grows_spawns h h' child x :
  grows h h' -> spawns h !! child = Some x -> spawns h' !! child = Some x.
Proof.
  intros (_ & _ & _ & [sp ->] & _) Hx. by apply lookup_app_l_Some.
Qed.

Lemma grows_promises h h' p x :
  grows h h' -> promises h !! p = Some x -> promises h' !! p = Some x.
Proof.
  intros (_ & _ & [ps ->] & _) Hx. by apply lookup_app_l_Some.
Qed.

Lemma booted_listeners e steps child name :
  (length (spawns (run steps (boot e))) <= child)%nat ->
  listeners_for child name (listeners (run steps (boot e))) = [].
Proof.
  intros Hc. destruct (run_grows steps (boot e)) as (_ & _ & _ & _ & ls & -> & F).
  simpl. apply listeners_for_other.
  eapply Forall_impl; [exact F |]. simpl. lia.
Qed.

(** *** What one call of [wiex] leaves behind

    The three ways through the body, by what the host answers to the two
    [spawn] calls. *)

Lemma wiex_lookup_throws r o child h :
  wiex r o Throws child h =
  ({| process_env := process_env h; process_exitCode := process_exitCode h;
      process_exited := Some 1%Z;
      logged := logged h ++ WIEX_PATH_check (process_env h)
                  ++ [(Error, commandNotExistErrorMessage (command r))];
      spawns := spawns h ++ [(where_call (command r), Throws)];
      listeners := listeners h; pipes := pipes h; written := written h;
      promises := promises h ++ [Pending] |},
   length (promises h)).
Proof.
  unfold WIEX_PATH_check. destruct h. host_fields.
  destruct (negb _); by rewrite <- ?app_assoc, ?app_nil_r.
Qed.

Lemma wiex_child_throws r o pw h :
  wiex r o (Launched pw) Throws h =
  (let e := process_env h in
   let where_ := length (spawns h) in
   let message := commandNotExistErrorMessage (command r) in
   {| process_env := e; process_exitCode := process_exitCode h;
      process_exited := process_exited h;
      logged := logged h ++ WIEX_PATH_check e;
      spawns := spawns h ++
        [(where_call (command r), Launched pw);
         (proc_call r e (e !! "PATH") (e !! "WIEX_PATH"), Throws)];
      listeners := listeners h ++
        [(where_, "close", where_close message);
         (where_, "error", where_error message)];
      pipes := pipes h; written := written h;
      promises := promises h ++ [Rejected] |},
   length (promises h)).
Proof.
  unfold WIEX_PATH_check. destruct h. host_fields.
  destruct (negb _);
    by rewrite insert_app_r_alt, Nat.sub_diag, <- ?app_assoc, ?app_nil_r.
Qed.

Lemma wiex_launched r o pw pp h :
  wiex r o (Launched pw) (Launched pp) h =
  (let e := process_env h in
   let where_ := length (spawns h) in
   let proc := S (length (spawns h)) in
   let message := commandNotExistErrorMessage (command r) in
   {| process_env := e; process_exitCode := process_exitCode h;
      process_exited := process_exited h;
      logged := logged h ++ WIEX_PATH_check e;
      spawns := spawns h ++
        [(where_call (command r), Launched pw);
         (proc_call r e (e !! "PATH") (e !! "WIEX_PATH"), Launched pp)];
      listeners := listeners h ++
        [(where_, "close", where_close message);
         (where_, "error", where_error message);
         (proc, "exit", proc_exit (strict o));
         (proc, "disconnect", proc_disconnect (strict o) pp);
         (proc, "close", proc_close (verbose o) pp)];
      pipes := pipes h ++ [(proc, stdout, outStream); (proc, stderr, errStream)];
      written := written h;
      promises := promises h ++ [Resolved] |},
   length (promises h)).
Proof.
  unfold WIEX_PATH_check. destruct h. host_fields.
  destruct (negb _);
    rewrite insert_app_r_alt, Nat.sub_diag, ?length_app, <- ?app_assoc,
      ?app_nil_r by done; simpl; repeat f_equal; lia.
Qed.

(** *** The state after an invocation and any later turns *)

Lemma run_invocation e pre post r o lookup child :
  process_exited (run pre (boot e)) = None ->
  run (pre ++ Call r o lookup child :: post) (boot e)
  = run post (wiex r o lookup child (run pre (boot e))).1.
Proof.
  intros L. rewrite run_app, run_cons. unfold do_step. by rewrite L.
Qed.

Lemma booted_env e pre : process_env (run pre (boot e)) = e.
Proof. by destruct (run_grows pre (boot e)) as [-> _]. Qed.

(** The lookup child keeps exactly the two listeners of lines 54 to 63. *)
Lemma lookup_child e pre post r o pw child :
  let h0 := run pre (boot e) in
  let where_ := length (spawns h0) in
  let message := commandNotExistErrorMessage (command r) in
  let h := run (pre ++ Call r o (Launched pw) child :: post) (boot e) in
  process_exited h0 = None ->
  spawns h !! where_ = Some (where_call (command r), Launched pw) /\
  listeners_for where_ "close" (listeners h) = [where_close message] /\
  listeners_for where_ "error" (listeners h) = [where_error message].
Proof.
  intros h0 where_ message h L. subst h.
  rewrite (run_invocation _ _ _ _ _ _ _ L). fold h0.
  set (h1 := (wiex r o (Launched pw) child h0).1).
  assert (S1 : spawns h1 !! where_
               = Some (where_call (command r), Launched pw)).
  { subst h1. destruct child; [rewrite wiex_child_throws
                              | rewrite wiex_launched]; simpl;
      by rewrite lookup_app_r, Nat.sub_diag. }
  assert (B : forall name, listeners_for where_ name (listeners h0) = [])
    by (intros; by apply booted_listeners).
  assert (W : (where_ < length (spawns h1))%nat)
    by (apply lookup_lt_is_Some; eauto).
  pose proof (run_grows post h1) as G.
  split; [by eapply grows_spawns |].
  rewrite !(grows_listeners_for _ _ _ _ G W). subst h1.
  destruct child; [rewrite wiex_child_throws | rewrite wiex_launched];
    simpl; rewrite !listeners_for_app, !B; simpl;
    pick_listeners.
Qed.

(** The target child keeps exactly the three listeners of lines 75 to 92,
    and the promise of the call that spawned it stays resolved. *)
Lemma target_child e pre post r o pw pp :
  let h0 := run pre (boot e) in
  let proc := S (length (spawns h0)) in
  let h := run (pre ++ Call r o (Launched pw) (Launched pp) :: post) (boot e) in
  process_exited h0 = None ->
  spawns h !! proc
    = Some (proc_call r e (e !! "PATH") (e !! "WIEX_PATH"), Launched pp) /\
  listeners_for proc "exit" (listeners h) = [proc_exit (strict o)] /\
  listeners_for proc "disconnect" (listeners h)
    = [proc_disconnect (strict o) pp] /\
  listeners_for proc "close" (listeners h) = [proc_close (verbose o) pp] /\
  promises h !! (wiex r o (Launched pw) (Launched pp) h0).2 = Some Resolved.
Proof.
  intros h0 proc h L. subst h.
  rewrite (run_invocation _ _ _ _ _ _ _ L). fold h0.
  set (h1 := (wiex r o (Launched pw) (Launched pp) h0).1).
  assert (S1 : spawns h1 !! proc
    = Some (proc_call r e (e !! "PATH") (e !! "WIEX_PATH"), Launched pp)).
  { subst h1 proc h0. rewrite wiex_launched. simpl.
    rewrite booted_env, lookup_app_r by lia.
    by replace (S (length (spawns (run pre (boot e))))
                - length (spawns (run pre (boot e))))%nat
      with 1%nat by lia. }
  assert (B : forall name, listeners_for proc name (listeners h0) = [])
    by (intros; apply booted_listeners; subst proc h0; simpl; lia).
  assert (W : (proc < length (spawns h1))%nat)
    by (apply lookup_lt_is_Some; eauto).
  pose proof (run_grows post h1) as G.
  split; [by eapply grows_spawns |].
  rewrite !(grows_listeners_for _ _ _ _ G W).
  split; [| split; [| split]].
  4: { apply (grows_promises _ _ _ _ G). subst h1.
       rewrite wiex_launched. simpl.
       by rewrite lookup_app_r, Nat.sub_diag. }
  all: subst h1; rewrite wiex_launched; simpl;
    rewrite !listeners_for_app, !B; simpl; unfold proc;
    pick_listeners.
Qed.

(** ** The claims *)

(** C1.  When the host lookup does not resolve the command, whatever
    [strict] and [verbose] are, the log receives exactly one more line, the
    error-level message [Error: {command} not found], and the process is
    ended with status 1.  This holds when launching the lookup throws (the
    line follows the lines of the [$WIEX_PATH] check of the same call), and
    when the lookup child later closes with a null or a non-zero status or
    emits ["error"], at any point of the life of a process that is still
    running. *)
Theorem unresolved_command_is_fatal
    (e : gmap string string) (pre post : list step)
    (r : Invocation) (o : WiexOptions) (child : launch) :
  let h0 := run pre (boot e) in
  let not_found := (Error, "Error: " +:+ command r +:+ " not found") in
  process_exited h0 = None ->
  (let h' := run (pre ++ [Call r o Throws child]) (boot e) in
   logged h' = logged h0 ++ WIEX_PATH_check e ++ [not_found] /\
   process_exited h' = Some 1%Z) /\
  (forall (pw : option Z) (ev : event),
     let h := run (pre ++ Call r o (Launched pw) child :: post) (boot e) in
     let h' := emit (length (spawns h0)) ev h in
     process_exited h = None -> lookup_failed ev ->
     logged h' = logged h ++ [not_found] /\
     process_exited h' = Some 1%Z).
Proof.
  intros h0 not_found L. split.
  - intros h'. subst h'. rewrite (run_invocation e pre [] r o _ _ L).
    rewrite wiex_lookup_throws. simpl. by rewrite booted_env.
  - intros pw ev h h' Lh F. subst h'.
    destruct (lookup_child e pre post r o pw child L) as (S & C & E).
    fold h in S, C, E. fold h0 in S, C, E.
    unfold emit. rewrite S.
    destruct F as [| c Hc Hz |]; simpl; rewrite ?C, ?E; simpl; rewrite Lh.
    + done.
    + simpl. replace (0 <? c)%Z with true by lia. done.
    + done.
Qed.

Lemma unresolved_command_is_fatal_witness :
  process_exited (run [] (boot example_env)) = None /\
  (let h' := run ([] ++ [Call cargo strict_verbose Throws Throws])
               (boot example_env) in
   logged h' = [(Error, "Error: cargo.exe not found")] /\
   process_exited h' = Some 1%Z) /\
  (let h := run ([] ++ Call cargo strict_verbose (Launched None)
                         (Launched (Some 7%Z)) :: [Emit 1 (Exit (Some 0%Z))])
              (boot example_env) in
   let h' := emit 0 (Close (Some 1%Z)) h in
   process_exited h = None /\ lookup_failed (Close (Some 1%Z)) /\
   logged h' = logged h ++ [(Error, "Error: cargo.exe not found")] /\
   process_exited h' = Some 1%Z).
Proof.
  assert (L : process_exited (run [] (boot example_env)) = None)
    by reflexivity.
  assert (F : lookup_failed (Close (Some 1%Z)))
    by (constructor; lia).
  destruct (unresolved_command_is_fatal example_env []
              [Emit 1 (Exit (Some 0%Z))] cargo strict_verbose Throws L)
    as [T _].
  destruct (unresolved_command_is_fatal example_env []
              [Emit 1 (Exit (Some 0%Z))] cargo strict_verbose
              (Launched (Some 7%Z)) L) as [_ A].
  split; [exact L |]. split; [exact T |].
  split; [reflexivity |]. split; [exact F |].
  exact (A None (Close (Some 1%Z)) eq_refl F).
Defined.

(** The lookup's ["close"] listener compares [code > 0]: a status of zero
    is the success the caller hears nothing about, and a negative code,
    which Node passes to ["close"] only after it has emitted ["error"] for
    a failed launch, is left to the ["error"] listener. *)
Remark lookup_close_without_failure (message : string) (c : Z) (h : host) :
  (c <= 0)%Z -> run_listener (where_close message) (Close (Some c)) h = h.
Proof.
  intros Hc. simpl. by replace (0 <? c)%Z with false by lia.
Qed.

(** C2.  When the target child exits with a code [c] that is not null (any
    integer, so in particular any [0 <= c]), in a process that is still
    running, [process.exitCode] becomes [c] whatever [strict] is, nothing is
    logged, the process goes on, and the promise [wiex] returned is
    resolved. *)
Theorem exit_code_becomes_host_exit_status
    (e : gmap string string) (pre post : list step)
    (r : Invocation) (o : WiexOptions) (pw pp : option Z) (c : Z) :
  let h0 := run pre (boot e) in
  let returned := (wiex r o (Launched pw) (Launched pp) h0).2 in
  let h := run (pre ++ Call r o (Launched pw) (Launched pp) :: post) (boot e) in
  let h' := emit (S (length (spawns h0))) (Exit (Some c)) h in
  process_exited h = None ->
  process_exitCode h' = Some c /\
  promises h' !! returned = Some Resolved /\
  logged h' = logged h /\
  process_exited h' = None.
Proof.
  intros h0 returned h h' Lh. subst h'.
  assert (L : process_exited h0 = None).
  { subst h. rewrite run_app in Lh. by apply live_before in Lh. }
  destruct (target_child e pre post r o pw pp L) as (S & X & _ & _ & P).
  fold h in S, X, P. fold h0 in S, X, P. fold returned in P.
  unfold emit. rewrite S. simpl. rewrite X. simpl. rewrite Lh.
  host_fields. repeat split; try done.
  by apply lookup_app_l_Some.
Qed.

Lemma exit_code_becomes_host_exit_status_witness :
  let h0 := run [] (boot example_env) in
  let returned :=
    (wiex cargo strict_verbose (Launched None) (Launched (Some 7%Z)) h0).2 in
  let h := run ([] ++ Call cargo strict_verbose (Launched None)
                         (Launched (Some 7%Z)) :: [Emit 1 (Data stdout "x")])
              (boot example_env) in
  let h' := emit 1 (Exit (Some 3%Z)) h in
  process_exited h = None /\
  process_exitCode h' = Some 3%Z /\
  promises h' !! returned = Some Resolved /\
  logged h' = logged h /\
  process_exited h' = None.
Proof.
  split; [reflexivity |].
  exact (exit_code_becomes_host_exit_status example_env []
           [Emit 1 (Data stdout "x")] cargo strict_verbose None (Some 7%Z)
           3%Z eq_refl).
Defined.

(** What the code does when the target child ends without an exit code or
    disconnects: the line is logged at the level [strict] selects, a new
    promise is made, rejected or resolved as [strict] selects, and dropped;
    the promise [wiex] returned is resolved in both modes. *)
Lemma ambiguous_end_of_child
    (e : gmap string string) (pre post : list step)
    (r : Invocation) (o : WiexOptions) (pw pp : option Z)
    (ev : event) (text : string) :
  let h0 := run pre (boot e) in
  let returned := (wiex r o (Launched pw) (Launched pp) h0).2 in
  let h := run (pre ++ Call r o (Launched pw) (Launched pp) :: post) (boot e) in
  let h' := emit (S (length (spawns h0))) ev h in
  process_exited h = None ->
  ev = Exit None /\ text = "exit code is unknown" \/
  ev = Disconnect /\
    text = "process " +:+ JS.string_of_number pp +:+ " disconnected." ->
  logged h' = logged h ++ [(errorIfStrictOrWarn (strict o), text)] /\
  promises h'
    = promises h
      ++ [if JS.truthy_boolean (strict o) then Rejected else Resolved] /\
  promises h' !! returned = Some Resolved /\
  process_exited h' = None.
Proof.
  intros h0 returned h h' Lh Hev. subst h'.
  assert (L : process_exited h0 = None).
  { subst h. rewrite run_app in Lh. by apply live_before in Lh. }
  destruct (target_child e pre post r o pw pp L) as (S & X & D & _ & P).
  fold h in S, X, D, P. fold h0 in S, X, D, P. fold returned in P.
  unfold emit. rewrite S.
  destruct Hev as [[-> ->] | [-> ->]]; simpl; rewrite ?X, ?D; simpl;
    rewrite Lh; host_fields; repeat split; try done;
    by apply lookup_app_l_Some.
Qed.

(** C3, evaluated where it fails.  In strict mode the target child exits
    with a null code, or disconnects: the line is logged at error level,
    and a rejected promise is made and dropped, but the promise [wiex]
    returned is resolved, not rejected. *)
Theorem strict_ambiguous_end_leaves_call_resolved :
  let h0 := boot example_env in
  let call := Call cargo strict_verbose (Launched None) (Launched (Some 7%Z)) in
  let returned :=
    (wiex cargo strict_verbose (Launched None) (Launched (Some 7%Z)) h0).2 in
  let unknown := run [call; Emit 1 (Exit None)] h0 in
  let disconnected := run [call; Emit 1 Disconnect] h0 in
  (logged unknown = [(Error, "exit code is unknown")] /\
   promises unknown !! returned = Some Resolved /\
   promises unknown = [Resolved; Rejected]) /\
  (logged disconnected = [(Error, "process 7 disconnected.")] /\
   promises disconnected !! returned = Some Resolved /\
   promises disconnected = [Resolved; Rejected]).
Proof. vm_compute. repeat split. Qed.

(** C4, evaluated where it fails.  With [WIEX_PATH] unset and [PATH] set
    to [/usr/bin], the child is spawned with [PATH] set to
    [/usr/bin:undefined], not to [/usr/bin]; the warning logged by the
    same call says that [$PATH] is not expanded. *)
Theorem unset_WIEX_PATH_appends_undefined :
  let h := run [Call cargo lenient (Launched None) (Launched (Some 7%Z))]
             (boot example_env_without_WIEX_PATH) in
  example_env_without_WIEX_PATH !! "WIEX_PATH" = None /\
  example_env_without_WIEX_PATH !! "PATH" = Some "/usr/bin" /\
  logged h = [(Warn, "$WIEX_PATH is not set, so wiex not expand $PATH")] /\
  (exists c answer,
     spawns h !! 1%nat = Some (c, answer) /\ file c = "cargo.exe" /\
     (env c ≫= (.!! "PATH")) = Some "/usr/bin:undefined").
Proof.
  repeat split; try reflexivity.
  eexists _, _. split; [vm_compute; reflexivity |].
  split; reflexivity.
Qed.

(** The same for every environment: an unset [WIEX_PATH] is rendered by
    the template literal as the word [undefined]. *)
Lemma proc_env_without_WIEX_PATH (e : gmap string string) (p : string) :
  e !! "PATH" = Some p -> e !! "WIEX_PATH" = None ->
  proc_env e (e !! "PATH") (e !! "WIEX_PATH") !! "PATH"
  = Some (p +:+ ":undefined").
Proof.
  intros -> ->. unfold proc_env. by rewrite lookup_insert_eq.
Qed.

(** C5.  An invocation whose lookup launches spawns the target, as its
    second [spawn] call, with the command, its arguments and an
    environment [env'] which is the host environment [e] with the one key
    [PATH] replaced: [PATH] is bound to the inherited path, [":"] and the
    augmentation value concatenated (each as the template literal renders
    it), and every other variable has the value it has in [e]. *)
Theorem child_environment_replaces_only_PATH
    (e : gmap string string) (pre : list step)
    (r : Invocation) (o : WiexOptions) (pw : option Z) (child : launch) :
  let h0 := run pre (boot e) in
  let h := run (pre ++ [Call r o (Launched pw) child]) (boot e) in
  process_exited h0 = None ->
  exists env' : gmap string string,
    spawns h !! S (length (spawns h0))
    = Some ({| file := command r; args := commandArgs r; env := Some env' |},
            child) /\
    env' = <["PATH" := JS.string_of_string (e !! "PATH") +:+ ":"
                       +:+ JS.string_of_string (e !! "WIEX_PATH")]> e /\
    (forall p w : string,
       e !! "PATH" = Some p -> e !! "WIEX_PATH" = Some w ->
       env' !! "PATH" = Some (p +:+ ":" +:+ w)) /\
    (forall k : string, k <> "PATH" -> env' !! k = e !! k).
Proof.
  intros h0 h L. subst h h0. rewrite (run_invocation e pre [] r o _ _ L).
  eexists. split; [| split; [reflexivity | split]].
  - destruct child; [rewrite wiex_child_throws | rewrite wiex_launched];
      simpl; rewrite booted_env;
      rewrite lookup_app_r by lia;
      by replace (S (length (spawns (run pre (boot e))))
                  - length (spawns (run pre (boot e))))%nat
        with 1%nat by lia.
  - intros p w -> ->. by rewrite lookup_insert_eq.
  - intros k Hk. by rewrite lookup_insert_ne.
Qed.

Lemma child_environment_replaces_only_PATH_witness :
  let h0 := run [] (boot example_env) in
  let h := run ([] ++ [Call cargo lenient (Launched None)
                         (Launched (Some 7%Z))]) (boot example_env) in
  process_exited h0 = None /\
  exists env' : gmap string string,
    spawns h !! S (length (spawns h0))
    = Some ({| file := "cargo.exe"; args := Some ["--version"];
               env := Some env' |}, Launched (Some 7%Z)) /\
    env' = <["PATH" := JS.string_of_string (example_env !! "PATH") +:+ ":"
                       +:+ JS.string_of_string (example_env !! "WIEX_PATH")]>
             example_env /\
    (forall p w : string,
       example_env !! "PATH" = Some p -> example_env !! "WIEX_PATH" = Some w ->
       env' !! "PATH" = Some (p +:+ ":" +:+ w)) /\
    (forall k : string, k <> "PATH" -> env' !! k = example_env !! k).
Proof.
  split; [reflexivity |].
  exact (child_environment_replaces_only_PATH example_env [] cargo lenient
           None (Launched (Some 7%Z)) eq_refl).
Defined.

(** On the example: the child sees the two paths joined, and [HOME] as
    the host has it. *)
Example cargo_environment :
  let env' := proc_env example_env (example_env !! "PATH")
                (example_env !! "WIEX_PATH") in
  env' !! "PATH" = Some "/usr/bin:/mnt/c/Users/alice/.cargo/bin" /\
  env' !! "HOME" = Some "/home/alice".
Proof. split; reflexivity. Qed.

Lemma quiet_refl h : quiet h h.
Proof. exists []. by rewrite app_nil_r. Qed.

Lemma quiet_trans h1 h2 h3 : quiet h1 h2 -> quiet h2 h3 -> quiet h1 h3.
Proof.
  intros (n1 & E1 & Z1) (n2 & E2 & Z2). exists (n1 ++ n2).
  split; [by rewrite E2, E1, app_assoc |].
  unfold lines_with in *. rewrite filter_app, length_app. lia.
Qed.

Lemma run_listener_quiet l ev h : quiet h (run_listener l ev h).
Proof.
  destruct l as [m | m | s | s pid | v pid]; simpl.
  - destruct ev as [code | | | |]; try apply quiet_refl.
    destruct (JS.null_or_positive code); [| apply quiet_refl].
    by eexists.
  - by eexists.
  - destruct ev as [| [code |] | | |]; try apply quiet_refl.
    + exists []. by rewrite app_nil_r.
    + eexists. split; [done |]. by destruct (errorIfStrictOrWarn s).
  - eexists. split; [done |]. by destruct (errorIfStrictOrWarn s).
  - destruct (JS.truthy_boolean v); [| apply quiet_refl]. by eexists.
Qed.

Lemma call_listeners_quiet ls ev h : quiet h (call_listeners ls ev h).
Proof.
  revert h. induction ls as [| l ls IH]; intros h; simpl.
  - apply quiet_refl.
  - destruct (process_exited h); [apply quiet_refl |].
    eapply quiet_trans; [apply run_listener_quiet | apply IH].
Qed.

Lemma forward_logged child s chunk ps h :
  logged (forward child s chunk ps h) = logged h.
Proof.
  revert h. induction ps as [| [[c s'] t] ps IH]; intros h; simpl; [done |].
  case_bool_decide; by rewrite IH.
Qed.

Lemma emit_quiet child ev h : quiet h (emit child ev h).
Proof.
  unfold emit. destruct (spawns h !! child) as [[c [| pid]] |];
    try apply quiet_refl.
  destruct ev;
    try (exists []; by rewrite forward_logged, app_nil_r);
    simpl; destruct (listeners_for _ _ _) as [| l ls];
    try apply (call_listeners_quiet (l :: ls));
    exists []; by rewrite app_nil_r.
Qed.

Lemma emits_quiet events h : quiet h (run (emits events) h).
Proof.
  revert h. induction events as [| [c ev] events IH]; intros h.
  - apply quiet_refl.
  - change (run (emits ((c, ev) :: events)) h)
      with (run (emits events) (do_step h (Emit c ev))).
    eapply quiet_trans; [| apply IH].
    unfold do_step. destruct (process_exited h); [apply quiet_refl |].
    apply emit_quiet.
Qed.

(** C6.  With [WIEX_PATH] unset, over the call and whatever its children
    emit afterwards, exactly one log line is the warning
    [$WIEX_PATH is not set, so wiex not expand $PATH], and it is the first
    line the call logs.  The call goes on to the lookup, and on to spawn
    the target whenever the lookup launches.  The check ends neither the
    process nor the call: right after the call the process has exited only
    if launching the lookup threw, and the returned promise is rejected
    only if launching the target threw. *)
Theorem unset_WIEX_PATH_only_warns
    (e : gmap string string) (pre : list step) (events : list (nat * event))
    (r : Invocation) (o : WiexOptions) (lookup child : launch) :
  let h0 := run pre (boot e) in
  let returned := (wiex r o lookup child h0).2 in
  let h1 := run (pre ++ [Call r o lookup child]) (boot e) in
  let h := run (pre ++ Call r o lookup child :: emits events) (boot e) in
  let warning := "$WIEX_PATH is not set, so wiex not expand $PATH" in
  e !! "WIEX_PATH" = None -> process_exited h0 = None ->
  (exists rest,
     logged h = logged h0 ++ (Warn, warning) :: rest /\
     lines_with Warn warning rest = 0%nat) /\
  spawns h1
  = spawns h0 ++ (where_call (command r), lookup) ::
      match lookup with
      | Throws => []
      | Launched _ => [(proc_call r e (e !! "PATH") None, child)]
      end /\
  process_exited h1
  = match lookup with Throws => Some 1%Z | Launched _ => None end /\
  promises h1 !! returned
  = Some match lookup, child with
         | Throws, _ => Pending
         | Launched _, Throws => Rejected
         | Launched _, Launched _ => Resolved
         end.
Proof.
  intros h0 returned h1 h warning U L. subst h1 h returned.
  rewrite !(run_invocation e pre _ r o _ _ L). fold h0.
  assert (E : process_env h0 = e) by apply booted_env.
  assert (W : WIEX_PATH_check e = [(Warn, WIEX_PATH_warning)])
    by (unfold WIEX_PATH_check; by rewrite U).
  split.
  - destruct (emits_quiet events (wiex r o lookup child h0).1)
      as (new & -> & Z).
    destruct lookup as [| pw]; [| destruct child as [| pp]];
      [rewrite wiex_lookup_throws | rewrite wiex_child_throws
      | rewrite wiex_launched]; simpl; rewrite E, W, <- ?app_assoc; simpl;
      eexists; (split; [reflexivity |]); exact Z.
  - destruct lookup as [| pw]; [| destruct child as [| pp]];
      [rewrite wiex_lookup_throws | rewrite wiex_child_throws
      | rewrite wiex_launched]; simpl; rewrite ?E, ?U;
      (split; [done |]); (split; [done |]);
      by rewrite lookup_app_r, Nat.sub_diag.
Qed.

Lemma unset_WIEX_PATH_only_warns_witness :
  let e := example_env_without_WIEX_PATH in
  let events := [(1%nat, Data stdout "cargo 1.51.0"); (1%nat, Exit None);
                 (1%nat, Close None); (0%nat, Close (Some 0%Z))] in
  let lookup := Launched None in
  let child := Launched (Some 7%Z) in
  let h0 := run [] (boot e) in
  let returned := (wiex cargo lenient lookup child h0).2 in
  let h1 := run ([] ++ [Call cargo lenient lookup child]) (boot e) in
  let h := run ([] ++ Call cargo lenient lookup child :: emits events)
             (boot e) in
  let warning := "$WIEX_PATH is not set, so wiex not expand $PATH" in
  e !! "WIEX_PATH" = None /\ process_exited h0 = None /\
  (exists rest,
     logged h = logged h0 ++ (Warn, warning) :: rest /\
     lines_with Warn warning rest = 0%nat) /\
  spawns h1
  = spawns h0 ++ [(where_call "cargo.exe", lookup);
                  (proc_call cargo e (e !! "PATH") None, child)] /\
  process_exited h1 = None /\
  promises h1 !! returned = Some Resolved.
Proof.
  split; [reflexivity |]. split; [reflexivity |].
  exact (unset_WIEX_PATH_only_warns example_env_without_WIEX_PATH []
           [(1%nat, Data stdout "cargo 1.51.0"); (1%nat, Exit None);
            (1%nat, Close None); (0%nat, Close (Some 0%Z))]
           cargo lenient (Launched None) (Launched (Some 7%Z))
           eq_refl eq_refl).
Defined.

(** C7.  When the target child emits ["close"], in a process that is
    still running: with [verbose] set to [true] the host afterwards is the
    host before with the one information-level line
    [process {pid} closed.] added to the log; with [verbose] unset or
    [false] the host is unchanged.  In both cases no promise is made or
    settled, and the exit code and the running state are as before. *)
Theorem close_event_only_logs
    (e : gmap string string) (pre post : list step)
    (r : Invocation) (o : WiexOptions) (pw pp code : option Z) :
  let h0 := run pre (boot e) in
  let h := run (pre ++ Call r o (Launched pw) (Launched pp) :: post) (boot e) in
  let h' := emit (S (length (spawns h0))) (Close code) h in
  process_exited h = None ->
  (verbose o = Some true ->
   h' = log Info ("process " +:+ JS.string_of_number pp +:+ " closed.") h) /\
  (verbose o <> Some true -> h' = h) /\
  promises h' = promises h /\
  process_exitCode h' = process_exitCode h /\
  process_exited h' = None.
Proof.
  intros h0 h h' Lh. subst h'.
  assert (L : process_exited h0 = None).
  { subst h. rewrite run_app in Lh. by apply live_before in Lh. }
  destruct (target_child e pre post r o pw pp L) as (S & _ & _ & C & _).
  fold h in S, C. fold h0 in S, C.
  unfold emit. rewrite S. simpl. rewrite C. simpl. rewrite Lh.
  destruct (verbose o) as [[|] |]; simpl; repeat split; congruence.
Qed.

Lemma close_event_only_logs_witness :
  let events := [Emit 1 (Exit (Some 0%Z))] in
  let loud := run ([] ++ Call cargo strict_verbose (Launched None)
                            (Launched (Some 7%Z)) :: events)
                (boot example_env) in
  let silent := run ([] ++ Call cargo lenient (Launched None)
                              (Launched (Some 7%Z)) :: events)
                  (boot example_env) in
  let loud' := emit 1 (Close (Some 0%Z)) loud in
  (process_exited loud = None /\
   verbose strict_verbose = Some true /\
   loud' = log Info "process 7 closed." loud /\
   promises loud' = promises loud /\
   process_exitCode loud' = process_exitCode loud /\
   process_exited loud' = None) /\
  (process_exited silent = None /\
   verbose lenient <> Some true /\
   emit 1 (Close (Some 0%Z)) silent = silent).
Proof.
  destruct (close_event_only_logs example_env [] [Emit 1 (Exit (Some 0%Z))]
              cargo strict_verbose None (Some 7%Z) (Some 0%Z) eq_refl)
    as (V & _ & P & C & X).
  destruct (close_event_only_logs example_env [] [Emit 1 (Exit (Some 0%Z))]
              cargo lenient None (Some 7%Z) (Some 0%Z) eq_refl)
    as (_ & Q & _).
  assert (N : verbose lenient <> Some true) by discriminate.
  split.
  - split; [reflexivity |]. split; [reflexivity |].
    split; [exact (V eq_refl) |]. split; [exact P |]. split; [exact C |].
    exact X.
  - split; [reflexivity |]. split; [exact N |]. exact (Q N).
Defined.

(** *** An event changes neither the environment nor the spawn calls *)

Lemma run_listener_same_children l ev h : same_children h (run_listener l ev h).
Proof.
  destruct l as [m | m | s | s pid | v pid]; simpl.
  - destruct ev as [code | | | |]; try done.
    by destruct (JS.null_or_positive code).
  - done.
  - by destruct ev as [| [code |] | | |].
  - done.
  - by destruct (JS.truthy_boolean v).
Qed.

Lemma call_listeners_same_children ls ev h :
  same_children h (call_listeners ls ev h).
Proof.
  revert h. induction ls as [| l ls IH]; intros h; simpl; [done |].
  destruct (process_exited h); [done |].
  destruct (run_listener_same_children l ev h) as [E1 S1].
  destruct (IH (run_listener l ev h)) as [E2 S2].
  split; congruence.
Qed.

Lemma forward_same_children child s chunk ps h :
  same_children h (forward child s chunk ps h).
Proof.
  revert h. induction ps as [| [[c s'] t] ps IH]; intros h; simpl; [done |].
  case_bool_decide; [| apply IH].
  destruct (IH (write t chunk h)) as [E S]. split; by rewrite ?E, ?S.
Qed.

Lemma emit_same_children child ev h : same_children h (emit child ev h).
Proof.
  unfold emit. destruct (spawns h !! child) as [[c [| pid]] |]; try done.
  destruct ev; try apply forward_same_children;
    simpl; destruct (listeners_for _ _ _) as [| l ls];
    try apply (call_listeners_same_children (l :: ls)); done.
Qed.

Lemma do_step_derived e h s : derived_from e h -> derived_from e (do_step h s).
Proof.
  intros [E F]. unfold do_step. destruct (process_exited h); [done |].
  destruct s as [r o lookup child | child ev].
  - destruct lookup as [| pw]; [| destruct child as [| pp]];
      [rewrite wiex_lookup_throws | rewrite wiex_child_throws
      | rewrite wiex_launched]; simpl; (split; [done |]);
      rewrite E; apply Forall_app; (split; [done |]);
      repeat constructor; by right.
  - destruct (emit_same_children child ev h) as [E' S'].
    split; [congruence | by rewrite S'].
Qed.

(** C8.  Over any sequence of invocations and events, from a process
    started with environment [e]: the host environment is [e] at the end
    (and so after every prefix of the sequence), and every [spawn] call
    either was given no environment (the lookups) or was given the one
    line 69 builds from [e] itself (the targets). *)
Theorem host_environment_is_never_mutated
    (e : gmap string string) (steps : list step) :
  let h := run steps (boot e) in
  process_env h = e /\
  (forall k : string, process_env h !! k = e !! k) /\
  Forall (fun x : spawn_call * launch =>
            env x.1 = None \/
            env x.1 = Some (proc_env e (e !! "PATH") (e !! "WIEX_PATH")))
         (spawns h).
Proof.
  intros h. subst h.
  assert (D : derived_from e (run steps (boot e))).
  { assert (D0 : derived_from e (boot e)) by (split; [done | constructor]).
    revert D0. generalize (boot e). induction steps as [| s steps IH];
      intros h D0; [done |].
    rewrite run_cons. by apply IH, do_step_derived. }
  destruct D as [E F]. split; [done |]. split; [by rewrite E | done].
Qed.

(** Two invocations in a row, with the first child exiting in between:
    the second child is handed the very environment the first was, and the
    host still has its own. *)
Example two_invocations_same_environment :
  let call := Call cargo lenient (Launched None) (Launched (Some 7%Z)) in
  let h := run [call; Emit 1 (Exit (Some 0%Z)); call] (boot example_env) in
  process_env h = example_env /\
  (fst <$> spawns h !! 1%nat) = (fst <$> spawns h !! 3%nat) /\
  process_env h !! "PATH" = Some "/usr/bin".
Proof. repeat split. Qed.

(** C10.  The first [spawn] call of an invocation, the lookup, is given as
    its file the one string ["where "] followed by the command, and neither
    an argument list nor options. *)
Theorem lookup_is_spawned_as_one_file_name
    (e : gmap string string) (pre : list step)
    (r : Invocation) (o : WiexOptions) (lookup child : launch) :
  let h0 := run pre (boot e) in
  let h := run (pre ++ [Call r o lookup child]) (boot e) in
  process_exited h0 = None ->
  spawns h !! length (spawns h0)
  = Some ({| file := "where " +:+ command r; args := None; env := None |},
          lookup).
Proof.
  intros h0 h L. subst h h0. rewrite (run_invocation e pre [] r o _ _ L).
  destruct lookup as [| pw]; [| destruct child as [| pp]];
    [rewrite wiex_lookup_throws | rewrite wiex_child_throws
    | rewrite wiex_launched]; simpl;
    by rewrite lookup_app_r, Nat.sub_diag.
Qed.

Lemma lookup_is_spawned_as_one_file_name_witness :
  let h0 := run [] (boot example_env) in
  let h := run ([] ++ [Call cargo lenient (Launched None)
                         (Launched (Some 7%Z))]) (boot example_env) in
  process_exited h0 = None /\
  spawns h !! length (spawns h0)
  = Some ({| file := "where cargo.exe"; args := None; env := None |},
          Launched None).
Proof.
  split; [reflexivity |].
  exact (lookup_is_spawned_as_one_file_name example_env [] cargo lenient
           (Launched None) (Launched (Some 7%Z)) eq_refl).
Defined.

(** *** The argument parser *)

Lemma reduce_from_beyond {A B : Type}
    (callback : B -> A -> nat -> list A -> B * list A)
    (n k : nat) (arr : list A) (acc : B) :
  (length arr <= k)%nat -> JS.reduce_from callback n k arr acc = acc.
Proof.
  revert k. induction n as [| n IH]; intros k Hk; simpl; [done |].
  rewrite (lookup_ge_None_2 arr k Hk). apply IH. lia.
Qed.

Lemma reduce_from_flags (args seen flags tail : list string)
    (n : nat) (acc : Cli.parsed) :
  Forall (fun a => a ∈ Cli.WIEX_OPTIONS) flags ->
  JS.reduce_from (Cli.callback args) (length flags + n) (length seen)
    (seen ++ flags ++ tail) acc
  = JS.reduce_from (Cli.callback args) n (length seen + length flags)
      (seen ++ flags ++ tail) (after_flags acc flags).
Proof.
  intros F. revert seen acc.
  induction F as [| flag flags Hflag F IH]; intros seen acc; simpl.
  - by rewrite Nat.add_0_r.
  - rewrite lookup_app_r, Nat.sub_diag by done. simpl.
    unfold Cli.callback at 1. rewrite bool_decide_eq_true_2 by done.
    specialize (IH (seen ++ [flag])).
    rewrite length_app, <- app_assoc in IH. simpl in IH.
    rewrite Nat.add_1_r in IH. rewrite IH. f_equal. lia.
Qed.

Lemma reduce_from_command (args arr : list string) (n k : nat)
    (acc : Cli.parsed) (cmd : string) :
  arr !! k = Some cmd -> cmd ∉ Cli.WIEX_OPTIONS ->
  JS.reduce_from (Cli.callback args) (S n) k arr acc
  = {| Cli.wiexArgs := Cli.wiexArgs acc; Cli.command := Some cmd;
       Cli.commandArgs := Some (drop (S k) args) |}.
Proof.
  intros Hk Hcmd. simpl. rewrite Hk. unfold Cli.callback at 1.
  rewrite bool_decide_eq_false_2 by done.
  apply reduce_from_beyond. rewrite length_take. lia.
Qed.

Lemma parse_args_flags (flags : list string) :
  Forall (fun a => a ∈ Cli.WIEX_OPTIONS) flags ->
  Cli.parse_args flags
  = after_flags {| Cli.wiexArgs := None; Cli.command := None;
                   Cli.commandArgs := None |} flags.
Proof.
  intros F. unfold Cli.parse_args, JS.reduce.
  pose proof (reduce_from_flags flags [] (flags ++ []) [] 0) as R.
  rewrite !app_nil_r, Nat.add_0_r in R. simpl in R. by rewrite R.
Qed.

(** The four tool flags. *)
Lemma known_flags (a : string) :
  a ∈ Cli.WIEX_OPTIONS <->
  a = "--version" \/ a = "--strict" \/ a = "--verbose" \/ a = "--help".
Proof.
  unfold Cli.WIEX_OPTIONS. rewrite !elem_of_union, !elem_of_singleton. tauto.
Qed.

(** Without a token other than the flags there is no command. *)
Lemma flags_only_no_command (flags : list string) :
  Forall (fun a => a ∈ Cli.WIEX_OPTIONS) flags ->
  Cli.command (Cli.parse_args flags) = None.
Proof.
  intros F. rewrite (parse_args_flags flags F).
  destruct flags as [| flag flags _] using rev_ind; [done |].
  unfold after_flags. by rewrite foldl_snoc.
Qed.

(** C9.  When the arguments after [node] and the script are some tool
    flags, then a token [cmd] that is not one of the four flags, then any
    tokens [rest]: the command is [cmd], its argument list is [rest] as it
    stands, and the tool options are those of the flags before [cmd] alone,
    whatever [rest] contains. *)
Theorem first_other_token_is_the_command
    (node script : string) (flags : list string) (cmd : string)
    (rest : list string) :
  let p := Cli.parse (node :: script :: flags ++ cmd :: rest) in
  Forall (fun a => a ∈ Cli.WIEX_OPTIONS) flags ->
  cmd ∉ Cli.WIEX_OPTIONS ->
  Cli.command p = Some cmd /\
  Cli.commandArgs p = Some rest /\
  Cli.wiexArgs p = Cli.wiexArgs (Cli.parse (node :: script :: flags)).
Proof.
  intros p F Hcmd. subst p.
  change (Cli.parse (node :: script :: flags ++ cmd :: rest))
    with (Cli.parse_args (flags ++ cmd :: rest)).
  change (Cli.parse (node :: script :: flags)) with (Cli.parse_args flags).
  rewrite (parse_args_flags flags F).
  unfold Cli.parse_args, JS.reduce.
  rewrite length_app. simpl length.
  set (args := flags ++ cmd :: rest).
  set (initial := {| Cli.wiexArgs := None; Cli.command := None;
                     Cli.commandArgs := None |}).
  assert (R : JS.reduce_from (Cli.callback args)
                (length flags + S (length rest)) 0 args initial
              = JS.reduce_from (Cli.callback args) (S (length rest))
                  (length flags) args (after_flags initial flags))
    by exact (reduce_from_flags args [] flags (cmd :: rest)
                (S (length rest)) initial F).
  rewrite R. clear R. subst args.
  rewrite (reduce_from_command _ _ _ _ _ cmd).
  - simpl. repeat split. f_equal.
    rewrite (cons_middle cmd flags rest), app_assoc.
    apply drop_app_length'. rewrite length_app. simpl. lia.
  - by rewrite lookup_app_r, Nat.sub_diag.
  - done.
Qed.

Lemma first_other_token_is_the_command_witness :
  let flags := ["--strict"; "--verbose"] in
  let rest := ["--version"; "build"; "--help"] in
  let p := Cli.parse ("node" :: "wiex" :: flags ++ "cargo.exe" :: rest) in
  Forall (fun a => a ∈ Cli.WIEX_OPTIONS) flags /\
  ("cargo.exe" ∉ Cli.WIEX_OPTIONS) /\
  Cli.command p = Some "cargo.exe" /\
  Cli.commandArgs p = Some rest /\
  Cli.wiexArgs p = Cli.wiexArgs (Cli.parse ("node" :: "wiex" :: flags)).
Proof.
  assert (F : Forall (fun a => a ∈ Cli.WIEX_OPTIONS) ["--strict"; "--verbose"])
    by (repeat constructor; apply bool_decide_unpack; vm_compute; exact I).
  assert (N : "cargo.exe" ∉ Cli.WIEX_OPTIONS)
    by (apply (bool_decide_unpack _); vm_compute; exact I).
  split; [exact F |]. split; [exact N |].
  exact (first_other_token_is_the_command "node" "wiex"
           ["--strict"; "--verbose"] "cargo.exe"
           ["--version"; "build"; "--help"] F N).
Defined.

(** The parser on that command line, evaluated. *)
Example parse_cargo :
  let p := Cli.parse ["node"; "wiex"; "--strict"; "cargo.exe"; "--version";
                      "build"; "--help"] in
  Cli.command p = Some "cargo.exe" /\
  Cli.commandArgs p = Some ["--version"; "build"; "--help"] /\
  Cli.wiexArgs p = Some {[ "--strict" := true ]}.
Proof. repeat split. Qed.

(** * Beyond the claims *)

(** ** The relay of the target's output (lines 73 and 74) *)

Lemma targets_app child s l1 l2 :
  targets child s (l1 ++ l2) = targets child s l1 ++ targets child s l2.
Proof.
  induction l1 as [| [[c s'] t] l1 IH]; simpl; [done |].
  case_bool_decide; simpl; by rewrite IH.
Qed.

Lemma targets_other child s ps :
  Forall (fun x : nat * std_stream * sink => x.1.1 <> child) ps ->
  targets child s ps = [].
Proof.
  intros F. induction F as [| [[c s'] t] ps Hc F IH]; simpl; [done |].
  simpl in Hc. case_bool_decide as E; [by destruct E | done].
Qed.

Lemma forward_targets child s chunk ps h :
  forward child s chunk ps h
  = fold_left (fun h t => write t chunk h) (targets child s ps) h.
Proof.
  revert h. induction ps as [| [[c s'] t] ps IH]; intros h; simpl; [done |].
  case_bool_decide; simpl; by rewrite IH.
Qed.

Lemma pipes_grow_refl h : pipes_grow h h.
Proof. split; [done |]. exists []. by rewrite app_nil_r. Qed.

Lemma pipes_grow_trans h1 h2 h3 :
  pipes_grow h1 h2 -> pipes_grow h2 h3 -> pipes_grow h1 h3.
Proof.
  intros (L1 & p1 & P1 & F1) (L2 & p2 & P2 & F2). split; [lia |].
  exists (p1 ++ p2). split; [by rewrite P2, P1, app_assoc |].
  apply Forall_app; split;
    (eapply Forall_impl; [eassumption |]); simpl; intros; lia.
Qed.

(** A listener touches neither the pipes nor what the sinks received. *)
Lemma run_listener_relay l ev h :
  pipes (run_listener l ev h) = pipes h /\
  written (run_listener l ev h) = written h.
Proof.
  destruct l as [m | m | s | s pid | v pid]; simpl.
  - destruct ev as [code | | | |]; try done.
    by destruct (JS.null_or_positive code).
  - done.
  - by destruct ev as [| [code |] | | |].
  - done.
  - by destruct (JS.truthy_boolean v).
Qed.

Lemma call_listeners_relay ls ev h :
  pipes (call_listeners ls ev h) = pipes h /\
  written (call_listeners ls ev h) = written h.
Proof.
  revert h. induction ls as [| l ls IH]; intros h; simpl; [done |].
  destruct (process_exited h); [done |].
  destruct (run_listener_relay l ev h) as [P1 W1].
  destruct (IH (run_listener l ev h)) as [P2 W2].
  split; congruence.
Qed.

Lemma forward_pipes child s chunk ps h :
  pipes (forward child s chunk ps h) = pipes h.
Proof.
  revert h. induction ps as [| [[c s'] t] ps IH]; intros h; simpl; [done |].
  case_bool_decide; by rewrite IH.
Qed.

Lemma emit_pipes child ev h : pipes (emit child ev h) = pipes h.
Proof.
  unfold emit. destruct (spawns h !! child) as [[c [| pid]] |]; try done.
  destruct ev; try apply forward_pipes;
    simpl; destruct (listeners_for _ _ _) as [| l ls];
    try apply (call_listeners_relay (l :: ls)); done.
Qed.

Lemma emit_pipes_grow child ev h : pipes_grow h (emit child ev h).
Proof.
  destruct (emit_same_children child ev h) as [_ S].
  split; [by rewrite S |]. exists [].
  by rewrite emit_pipes, app_nil_r.
Qed.

Lemma wiex_pipes_grow r o lookup child h :
  pipes_grow h (wiex r o lookup child h).1.
Proof.
  destruct lookup as [| pw]; [| destruct child as [| pp]];
    [rewrite wiex_lookup_throws | rewrite wiex_child_throws
    | rewrite wiex_launched]; simpl; unfold pipes_grow; simpl;
    rewrite length_app; simpl; (split; [lia |]).
  - exists []. by rewrite app_nil_r.
  - exists []. by rewrite app_nil_r.
  - eexists. split; [done |]. repeat constructor; simpl; lia.
Qed.

Lemma run_pipes_grow steps h : pipes_grow h (run steps h).
Proof.
  revert h. induction steps as [| s steps IH]; intros h.
  - apply pipes_grow_refl.
  - rewrite run_cons. eapply pipes_grow_trans; [| apply IH].
    unfold do_step. destruct (process_exited h); [apply pipes_grow_refl |].
    destruct s; [apply wiex_pipes_grow | apply emit_pipes_grow].
Qed.

Lemma pipes_grow_targets h h' child s :
  pipes_grow h h' -> (child < length (spawns h))%nat ->
  targets child s (pipes h') = targets child s (pipes h).
Proof.
  intros (_ & ps & -> & F) Hc.
  rewrite targets_app, (targets_other _ _ ps), app_nil_r; [done |].
  eapply Forall_impl; [exact F |]. simpl. lia.
Qed.

Lemma booted_targets e steps child s :
  (length (spawns (run steps (boot e))) <= child)%nat ->
  targets child s (pipes (run steps (boot e))) = [].
Proof.
  intros Hc. destruct (run_pipes_grow steps (boot e)) as (_ & ps & -> & F).
  simpl. apply targets_other.
  eapply Forall_impl; [exact F |]. simpl. lia.
Qed.

(** The pipes of the two children of an invocation, in any later state:
    none on the lookup, one per stream on the target. *)
Lemma invocation_pipes e pre post r o pw pp :
  let h0 := run pre (boot e) in
  let where_ := length (spawns h0) in
  let proc := S (length (spawns h0)) in
  let h := run (pre ++ Call r o (Launched pw) (Launched pp) :: post) (boot e) in
  process_exited h0 = None ->
  (forall s, targets where_ s (pipes h) = []) /\
  targets proc stdout (pipes h) = [outStream] /\
  targets proc stderr (pipes h) = [errStream].
Proof.
  intros h0 where_ proc h L. subst h.
  rewrite (run_invocation _ _ _ _ _ _ _ L). fold h0.
  set (h1 := (wiex r o (Launched pw) (Launched pp) h0).1).
  assert (B : forall c s, (where_ <= c)%nat -> targets c s (pipes h0) = [])
    by (intros; by apply booted_targets).
  assert (W : (proc < length (spawns h1))%nat).
  { subst h1. rewrite wiex_launched. simpl. rewrite length_app. simpl.
    unfold proc. lia. }
  pose proof (run_pipes_grow post h1) as G.
  rewrite !(pipes_grow_targets _ _ _ _ G W).
  split; [intros s; rewrite (pipes_grow_targets _ _ where_ s G)
                      by (unfold where_, proc in *; lia) |];
    subst h1; rewrite wiex_launched; simpl;
    rewrite !targets_app, !B by (unfold where_, proc; lia); simpl;
    unfold where_, proc.
  - repeat (let E := fresh "E" in case_bool_decide as E;
            [exfalso; destruct E; lia |]). done.
  - split; pick_listeners.
Qed.

(** What one event of the target child does to the sinks. *)
Lemma relay_step child pp c ev h :
  spawns h !! child = Some (c, Launched pp) ->
  targets child stdout (pipes h) = [outStream] ->
  targets child stderr (pipes h) = [errStream] ->
  let h' := emit child ev h in
  spawns h' = spawns h /\ pipes h' = pipes h /\
  written h' = written h ++ match relayed ev with
                            | Some x => [x]
                            | None => []
                            end.
Proof.
  intros S O E h'. subst h'.
  destruct (emit_same_children child ev h) as [_ S'].
  split; [done |]. split; [apply emit_pipes |].
  unfold emit. rewrite S.
  destruct ev as [code | code | | | [|] chunk];
    try (rewrite forward_targets, ?O, ?E; done);
    simpl; rewrite app_nil_r;
    destruct (listeners_for _ _ _) as [| l ls];
    try apply (call_listeners_relay (l :: ls)); done.
Qed.

Lemma relay_run child pp c evs h :
  spawns h !! child = Some (c, Launched pp) ->
  targets child stdout (pipes h) = [outStream] ->
  targets child stderr (pipes h) = [errStream] ->
  process_exited (run (map (Emit child) evs) h) = None ->
  written (run (map (Emit child) evs) h) = written h ++ omap relayed evs.
Proof.
  revert h. induction evs as [| ev evs IH]; intros h S O E L.
  - simpl. by rewrite app_nil_r.
  - change (map (Emit child) (ev :: evs))
      with (Emit child ev :: map (Emit child) evs) in *.
    rewrite run_cons in *. pose proof (live_before _ _ L) as L1.
    assert (L0 : process_exited h = None).
    { destruct (process_exited h) as [n |] eqn:X; [| done].
      unfold do_step in L1. rewrite X in L1. simpl in L1. congruence. }
    unfold do_step in *. rewrite L0 in *.
    destruct (relay_step child pp c ev h S O E) as (S' & P' & W').
    rewrite (IH (emit child ev h)).
    + rewrite W', <- app_assoc. simpl. by destruct (relayed ev).
    + by rewrite S'.
    + by rewrite P'.
    + by rewrite P'.
    + done.
Qed.

(** X1.  Whatever events the target child emits, and in whatever order
    its chunks on [stdout] and [stderr] are mixed with them and with each
    other, as long as the process has not exited the caller's two sinks have
    received exactly the chunks emitted, each once, in the order emitted:
    those of [stdout] on [outStream], those of [stderr] on [errStream]. *)
Theorem target_output_is_relayed_in_order
    (e : gmap string string) (pre post : list step)
    (r : Invocation) (o : WiexOptions) (pw pp : option Z)
    (evs : list event) :
  let h0 := run pre (boot e) in
  let proc := S (length (spawns h0)) in
  let h := run (pre ++ Call r o (Launched pw) (Launched pp) :: post) (boot e) in
  let h' := run (map (Emit proc) evs) h in
  process_exited h' = None ->
  written h' = written h ++ omap relayed evs.
Proof.
  intros h0 proc h h' L'. subst h'.
  assert (Lh : process_exited h = None) by by apply live_before in L'.
  assert (L : process_exited h0 = None).
  { subst h. rewrite run_app in Lh. by apply live_before in Lh. }
  destruct (target_child e pre post r o pw pp L) as (S & _).
  destruct (invocation_pipes e pre post r o pw pp L) as (_ & O & E).
  by eapply relay_run.
Qed.

Lemma target_output_is_relayed_in_order_witness :
  let evs := [Data stdout "cargo "; Data stderr "warning"; Exit (Some 0%Z);
              Data stdout "1.51.0"; Close (Some 0%Z)] in
  let h := run ([] ++ Call cargo lenient (Launched None)
                         (Launched (Some 7%Z)) :: [Emit 0 (Close (Some 0%Z))])
              (boot example_env) in
  let h' := run (map (Emit 1) evs) h in
  process_exited h' = None /\
  written h' = written h ++ [(outStream, "cargo "); (errStream, "warning");
                             (outStream, "1.51.0")].
Proof.
  split; [reflexivity |].
  exact (target_output_is_relayed_in_order example_env []
           [Emit 0 (Close (Some 0%Z))] cargo lenient None (Some 7%Z)
           [Data stdout "cargo "; Data stderr "warning"; Exit (Some 0%Z);
            Data stdout "1.51.0"; Close (Some 0%Z)] eq_refl).
Defined.

(** X2.  The lookup child has no pipe and only failure listeners: its
    output goes nowhere, and when it closes with status zero, exits or
    disconnects, the host is left exactly as it was. *)
Theorem resolved_lookup_changes_nothing
    (e : gmap string string) (pre post : list step)
    (r : Invocation) (o : WiexOptions) (pw pp : option Z) (ev : event) :
  let h0 := run pre (boot e) in
  let h := run (pre ++ Call r o (Launched pw) (Launched pp) :: post) (boot e) in
  process_exited h = None ->
  (exists s chunk, ev = Data s chunk) \/ ev = Close (Some 0%Z) \/
  (exists code, ev = Exit code) \/ ev = Disconnect ->
  emit (length (spawns h0)) ev h = h.
Proof.
  intros h0 h Lh Hev.
  assert (L : process_exited h0 = None).
  { subst h. rewrite run_app in Lh. by apply live_before in Lh. }
  destruct (lookup_child e pre post r o pw (Launched pp) L) as (S & C & E).
  destruct (invocation_pipes e pre post r o pw pp L) as (P & _).
  fold h in S, C, E, P. fold h0 in S, C, E, P.
  assert (N : forall name, name <> "close" -> name <> "error" ->
                listeners_for (length (spawns h0)) name (listeners h) = []).
  { intros name N1 N2. subst h.
    rewrite (run_invocation _ _ _ _ _ _ _ L). fold h0.
    set (h1 := (wiex r o (Launched pw) (Launched pp) h0).1).
    assert (W : (length (spawns h0) < length (spawns h1))%nat).
    { subst h1. rewrite wiex_launched. simpl. rewrite length_app. simpl.
      lia. }
    rewrite (grows_listeners_for _ _ _ _ (run_grows post h1) W).
    subst h1. rewrite wiex_launched. simpl.
    rewrite listeners_for_app, (booted_listeners e pre) by done. simpl.
    repeat (let X := fresh "X" in case_bool_decide as X;
            [exfalso; destruct X; first [lia | congruence] |]). done. }
  unfold emit. rewrite S.
  destruct Hev as [(s & chunk & ->) | [-> | [(code & ->) | ->]]]; simpl.
  - by rewrite forward_targets, P.
  - rewrite C. simpl. by rewrite Lh.
  - by rewrite N.
  - by rewrite N.
Qed.

Lemma resolved_lookup_changes_nothing_witness :
  let h := run ([] ++ Call cargo lenient (Launched None)
                         (Launched (Some 7%Z)) :: [Emit 1 (Data stdout "x")])
              (boot example_env) in
  process_exited h = None /\
  emit 0 (Data stdout "C:\cargo.exe") h = h /\
  emit 0 (Close (Some 0%Z)) h = h /\
  emit 0 (Exit (Some 0%Z)) h = h.
Proof.
  pose (A := resolved_lookup_changes_nothing example_env []
               [Emit 1 (Data stdout "x")] cargo lenient None (Some 7%Z)).
  split; [reflexivity |]. split; [| split].
  - apply (A (Data stdout "C:\cargo.exe") eq_refl). left. by eexists _, _.
  - apply (A (Close (Some 0%Z)) eq_refl). right. by left.
  - apply (A (Exit (Some 0%Z)) eq_refl). right. right. left. by eexists.
Defined.

(** ** How the call settles (lines 38 to 93) *)

(** X3.  The promise [wiex] returns is settled by what the two [spawn]
    calls answered, before any event of a child, and nothing that happens
    later changes it: it is resolved when both children were launched,
    rejected when launching the target threw, and pending for good when
    launching the lookup threw and the process exited. *)
Theorem call_is_settled_when_it_returns
    (e : gmap string string) (pre post : list step)
    (r : Invocation) (o : WiexOptions) (lookup child : launch) :
  let h0 := run pre (boot e) in
  let returned := (wiex r o lookup child h0).2 in
  let h := run (pre ++ Call r o lookup child :: post) (boot e) in
  process_exited h0 = None ->
  promises h !! returned
  = Some match lookup, child with
         | Throws, _ => Pending
         | Launched _, Throws => Rejected
         | Launched _, Launched _ => Resolved
         end.
Proof.
  intros h0 returned h L. subst h returned.
  rewrite (run_invocation _ _ _ _ _ _ _ L). fold h0.
  apply (grows_promises _ _ _ _ (run_grows post _)).
  destruct lookup as [| pw]; [| destruct child as [| pp]];
    [rewrite wiex_lookup_throws | rewrite wiex_child_throws
    | rewrite wiex_launched]; simpl;
    by rewrite lookup_app_r, Nat.sub_diag.
Qed.

Lemma call_is_settled_when_it_returns_witness :
  let h0 := run [] (boot example_env) in
  let later := [Emit 1 (Exit None); Emit 1 Disconnect; Emit 0 Failure] in
  let resolved :=
    run ([] ++ Call cargo strict_verbose (Launched None)
                 (Launched (Some 7%Z)) :: later) (boot example_env) in
  let rejected :=
    run ([] ++ Call cargo strict_verbose (Launched None) Throws :: later)
      (boot example_env) in
  process_exited h0 = None /\
  promises resolved !! 0%nat = Some Resolved /\
  promises rejected !! 0%nat = Some Rejected.
Proof.
  split; [reflexivity |]. split.
  - exact (call_is_settled_when_it_returns example_env []
             [Emit 1 (Exit None); Emit 1 Disconnect; Emit 0 Failure]
             cargo strict_verbose (Launched None) (Launched (Some 7%Z))
             eq_refl).
  - exact (call_is_settled_when_it_returns example_env []
             [Emit 1 (Exit None); Emit 1 Disconnect; Emit 0 Failure]
             cargo strict_verbose (Launched None) Throws eq_refl).
Defined.

(** X4.  The target child has no ["error"] listener: when it emits
    ["error"] (the command could not be launched), in a process that is
    still running, the event is thrown, nothing is logged, and the process
    ends with status 1. *)
Theorem target_error_is_uncaught
    (e : gmap string string) (pre post : list step)
    (r : Invocation) (o : WiexOptions) (pw pp : option Z) :
  let h0 := run pre (boot e) in
  let h := run (pre ++ Call r o (Launched pw) (Launched pp) :: post) (boot e) in
  process_exited h = None ->
  emit (S (length (spawns h0))) Failure h = process_exit 1 h.
Proof.
  intros h0 h Lh.
  assert (L : process_exited h0 = None).
  { subst h. rewrite run_app in Lh. by apply live_before in Lh. }
  destruct (target_child e pre post r o pw pp L) as (S & _).
  fold h in S. fold h0 in S.
  assert (N : listeners_for (Datatypes.S (length (spawns h0))) "error"
                (listeners h) = []).
  { subst h. rewrite (run_invocation _ _ _ _ _ _ _ L). fold h0.
    set (h1 := (wiex r o (Launched pw) (Launched pp) h0).1).
    assert (W : (Datatypes.S (length (spawns h0)) < length (spawns h1))%nat).
    { subst h1. rewrite wiex_launched. simpl. rewrite length_app. simpl.
      lia. }
    rewrite (grows_listeners_for _ _ _ _ (run_grows post h1) W).
    subst h1. rewrite wiex_launched. simpl.
    rewrite listeners_for_app, (booted_listeners e pre) by (fold h0; lia).
    simpl.
    repeat (let X := fresh "X" in case_bool_decide as X;
            [exfalso; destruct X; first [lia | congruence] |]). done. }
  unfold emit. rewrite S. simpl. by rewrite N.
Qed.

Lemma target_error_is_uncaught_witness :
  let h := run ([] ++ Call cargo lenient (Launched None)
                         (Launched None) :: []) (boot example_env) in
  process_exited h = None /\
  emit 1 Failure h = process_exit 1 h /\
  logged (emit 1 Failure h) = [].
Proof.
  split; [reflexivity |]. split; [| reflexivity].
  exact (target_error_is_uncaught example_env [] [] cargo lenient None None
           eq_refl).
Defined.



(** ** The two environment variables (lines 46 to 49 and 69) *)

(** X6.  With [WIEX_PATH] set to a string that is not empty, the call
    and the events after it never log the [$WIEX_PATH] warning, and the call
    itself logs nothing at all unless launching the lookup throws. *)
Theorem set_WIEX_PATH_never_warns
    (e : gmap string string) (pre : list step) (events : list (nat * event))
    (r : Invocation) (o : WiexOptions) (lookup child : launch) (w : string) :
  let h0 := run pre (boot e) in
  let h1 := run (pre ++ [Call r o lookup child]) (boot e) in
  let h := run (pre ++ Call r o lookup child :: emits events) (boot e) in
  e !! "WIEX_PATH" = Some w -> w <> EmptyString ->
  process_exited h0 = None ->
  logged h1
  = logged h0 ++ match lookup with
                 | Throws => [(Error, commandNotExistErrorMessage (command r))]
                 | Launched _ => []
                 end /\
  exists new, logged h = logged h0 ++ new /\
              lines_with Warn WIEX_PATH_warning new = 0%nat.
Proof.
  intros h0 h1 h Hw Hne L. subst h1 h.
  rewrite !(run_invocation e pre _ r o _ _ L). fold h0.
  assert (E : process_env h0 = e) by apply booted_env.
  assert (W : WIEX_PATH_check e = []).
  { unfold WIEX_PATH_check. rewrite Hw. by destruct w. }
  destruct (emits_quiet events (wiex r o lookup child h0).1)
    as (new & -> & Z).
  destruct lookup as [| pw]; [| destruct child as [| pp]];
    [rewrite wiex_lookup_throws | rewrite wiex_child_throws
    | rewrite wiex_launched]; simpl; rewrite E, W; simpl;
    rewrite ?app_nil_r; (split; [done |]);
    eexists; (split; [by rewrite <- ?app_assoc |]);
    unfold lines_with in *; simpl; done.
Qed.

Lemma set_WIEX_PATH_never_warns_witness :
  let events := [(1%nat, Exit None); (1%nat, Disconnect);
                 (0%nat, Close None)] in
  let h0 := run [] (boot example_env) in
  let h1 := run ([] ++ [Call cargo lenient (Launched None)
                          (Launched (Some 7%Z))]) (boot example_env) in
  let h := run ([] ++ Call cargo lenient (Launched None)
                  (Launched (Some 7%Z)) :: emits events) (boot example_env) in
  example_env !! "WIEX_PATH" = Some "/mnt/c/Users/alice/.cargo/bin" /\
  "/mnt/c/Users/alice/.cargo/bin" <> EmptyString /\
  process_exited h0 = None /\
  logged h1 = logged h0 ++ [] /\
  exists new, logged h = logged h0 ++ new /\
              lines_with Warn WIEX_PATH_warning new = 0%nat.
Proof.
  assert (N : "/mnt/c/Users/alice/.cargo/bin" <> EmptyString)
    by discriminate.
  split; [reflexivity |]. split; [exact N |]. split; [reflexivity |].
  exact (set_WIEX_PATH_never_warns example_env []
           [(1%nat, Exit None); (1%nat, Disconnect); (0%nat, Close None)]
           cargo lenient (Launched None) (Launched (Some 7%Z))
           "/mnt/c/Users/alice/.cargo/bin" eq_refl N eq_refl).
Defined.

(** X7.  [WIEX_PATH] set to the empty string counts as not set for the
    warning, which is logged, while the target is spawned with the
    inherited path followed by the separator alone. *)
Theorem empty_WIEX_PATH_warns_and_appends_separator
    (e : gmap string string) (pre : list step)
    (r : Invocation) (o : WiexOptions) (pw : option Z) (child : launch)
    (p : string) :
  let h0 := run pre (boot e) in
  let h := run (pre ++ [Call r o (Launched pw) child]) (boot e) in
  e !! "WIEX_PATH" = Some EmptyString -> e !! "PATH" = Some p ->
  process_exited h0 = None ->
  logged h = logged h0 ++ [(Warn, WIEX_PATH_warning)] /\
  exists c, spawns h !! S (length (spawns h0)) = Some (c, child) /\
            (env c ≫= (.!! "PATH")) = Some (p +:+ ":").
Proof.
  intros h0 h Hw Hp L. subst h.
  rewrite (run_invocation e pre _ r o _ _ L). fold h0.
  assert (E : process_env h0 = e) by apply booted_env.
  assert (W : WIEX_PATH_check e = [(Warn, WIEX_PATH_warning)])
    by (unfold WIEX_PATH_check; by rewrite Hw).
  destruct child as [| pp];
    [rewrite wiex_child_throws | rewrite wiex_launched]; simpl;
    rewrite E, W, Hw, Hp; (split; [done |]); eexists;
    (split; [rewrite lookup_app_r by lia;
             by replace (S (length (spawns h0)) - length (spawns h0))%nat
               with 1%nat by lia |]);
    simpl; unfold proc_env; by rewrite lookup_insert_eq.
Qed.

Lemma empty_WIEX_PATH_warns_and_appends_separator_witness :
  let e := <["WIEX_PATH" := EmptyString]> example_env in
  let h0 := run [] (boot e) in
  let h := run ([] ++ [Call cargo lenient (Launched None)
                         (Launched (Some 7%Z))]) (boot e) in
  e !! "WIEX_PATH" = Some EmptyString /\ e !! "PATH" = Some "/usr/bin" /\
  process_exited h0 = None /\
  logged h = logged h0 ++ [(Warn, WIEX_PATH_warning)] /\
  exists c, spawns h !! S (length (spawns h0))
            = Some (c, Launched (Some 7%Z)) /\
            (env c ≫= (.!! "PATH")) = Some "/usr/bin:".
Proof.
  split; [reflexivity |]. split; [reflexivity |]. split; [reflexivity |].
  exact (empty_WIEX_PATH_warns_and_appends_separator
           (<["WIEX_PATH" := EmptyString]> example_env) [] cargo lenient None
           (Launched (Some 7%Z)) "/usr/bin" eq_refl eq_refl eq_refl).
Defined.

(** X8.  With [PATH] itself unset, the target is spawned with a [PATH]
    that begins with the word [undefined], and the host still has none. *)
Theorem unset_PATH_is_spawned_as_undefined
    (e : gmap string string) (pre : list step)
    (r : Invocation) (o : WiexOptions) (pw : option Z) (child : launch) :
  let h0 := run pre (boot e) in
  let h := run (pre ++ [Call r o (Launched pw) child]) (boot e) in
  e !! "PATH" = None -> process_exited h0 = None ->
  process_env h !! "PATH" = None /\
  exists c, spawns h !! S (length (spawns h0)) = Some (c, child) /\
            (env c ≫= (.!! "PATH"))
            = Some ("undefined:" +:+ JS.string_of_string (e !! "WIEX_PATH")).
Proof.
  intros h0 h Hp L. subst h.
  split; [by rewrite booted_env |].
  rewrite (run_invocation e pre _ r o _ _ L). fold h0.
  assert (E : process_env h0 = e) by apply booted_env.
  destruct child as [| pp];
    [rewrite wiex_child_throws | rewrite wiex_launched]; simpl;
    rewrite E, Hp; eexists;
    (split; [rewrite lookup_app_r by lia;
             by replace (S (length (spawns h0)) - length (spawns h0))%nat
               with 1%nat by lia |]);
    simpl; unfold proc_env; by rewrite lookup_insert_eq.
Qed.

Lemma unset_PATH_is_spawned_as_undefined_witness :
  let e : gmap string string := <["WIEX_PATH" := "/mnt/c/bin"]> ∅ in
  let h0 := run [] (boot e) in
  let h := run ([] ++ [Call cargo lenient (Launched None)
                         (Launched (Some 7%Z))]) (boot e) in
  e !! "PATH" = None /\ process_exited h0 = None /\
  process_env h !! "PATH" = None /\
  exists c, spawns h !! S (length (spawns h0))
            = Some (c, Launched (Some 7%Z)) /\
            (env c ≫= (.!! "PATH")) = Some "undefined:/mnt/c/bin".
Proof.
  split; [reflexivity |]. split; [reflexivity |].
  exact (unset_PATH_is_spawned_as_undefined (<["WIEX_PATH" := "/mnt/c/bin"]> ∅)
           [] cargo lenient None (Launched (Some 7%Z)) eq_refl eq_refl).
Defined.

(** ** The parser on every argument list (lines 96 to 105) *)

Lemma split_at_command (args : list string) :
  args = leading_flags args ++ after_leading_flags args /\
  Forall (fun a => a ∈ Cli.WIEX_OPTIONS) (leading_flags args) /\
  (after_leading_flags args = [] \/
   exists cmd rest, after_leading_flags args = cmd :: rest /\
                    cmd ∉ Cli.WIEX_OPTIONS).
Proof.
  induction args as [| a args (IH1 & IH2 & IH3)]; simpl.
  - repeat split; [constructor | by left].
  - case_bool_decide as Ha; simpl.
    + repeat split; [by f_equal | by constructor | done].
    + repeat split; [constructor |]. right. by eexists _, _.
Qed.

Lemma after_flags_lookup (acc : Cli.parsed) (flags : list string) (k : string) :
  default ∅ (Cli.wiexArgs (after_flags acc flags)) !! k
  = if bool_decide (k ∈ flags) then Some true
    else default ∅ (Cli.wiexArgs acc) !! k.
Proof.
  revert acc. induction flags as [| flag flags IH]; intros acc.
  - by rewrite bool_decide_eq_false_2 by apply not_elem_of_nil.
  - change (after_flags acc (flag :: flags))
      with (after_flags
              {| Cli.wiexArgs :=
                   Some (<[flag := true]> (default ∅ (Cli.wiexArgs acc)));
                 Cli.command := None; Cli.commandArgs := None |} flags).
    rewrite IH. simpl.
    destruct (decide (k ∈ flags)) as [Hin | Hout].
    + rewrite !bool_decide_eq_true_2; [done | by right | done].
    + rewrite (bool_decide_eq_false_2 (k ∈ flags)) by done.
      destruct (decide (k = flag)) as [-> | Hne].
      * rewrite lookup_insert_eq, bool_decide_eq_true_2; [done | by left].
      * rewrite lookup_insert_ne by done.
        rewrite bool_decide_eq_false_2; [done |].
        intros Hx. apply elem_of_cons in Hx as [? | ?]; done.
Qed.

Lemma after_flags_fields (acc : Cli.parsed) (flag : string)
    (flags : list string) :
  exists m, after_flags acc (flag :: flags)
            = {| Cli.wiexArgs := Some m; Cli.command := None;
                 Cli.commandArgs := None |}.
Proof.
  revert acc flag. induction flags as [| f flags IH]; intros acc flag.
  - by eexists.
  - change (after_flags acc (flag :: f :: flags))
      with (after_flags
              {| Cli.wiexArgs :=
                   Some (<[flag := true]> (default ∅ (Cli.wiexArgs acc)));
                 Cli.command := None; Cli.commandArgs := None |}
              (f :: flags)).
    apply IH.
Qed.

(** The options object after the flags [flags]: none when there is no
    flag, else the object with exactly the flags as keys, all [true]. *)
Lemma after_flags_wiexArgs (flags : list string) :
  Cli.wiexArgs (after_flags {| Cli.wiexArgs := None; Cli.command := None;
                               Cli.commandArgs := None |} flags)
  = match flags with
    | [] => None
    | _ => Some (gset_to_gmap true (list_to_set flags))
    end.
Proof.
  destruct flags as [| flag flags]; [done |].
  set (initial := {| Cli.wiexArgs := None; Cli.command := None;
                     Cli.commandArgs := None |}).
  pose proof (after_flags_lookup initial (flag :: flags)) as Hk.
  destruct (after_flags_fields initial flag flags) as [m Hm].
  rewrite Hm in *. simpl in *. f_equal. apply map_eq. intros k.
  rewrite Hk, lookup_gset_to_gmap, lookup_empty.
  case_bool_decide as E.
  - rewrite option_guard_True; [done |].
    rewrite elem_of_union, elem_of_singleton, elem_of_list_to_set.
    by apply elem_of_cons in E.
  - rewrite option_guard_False; [done |].
    rewrite elem_of_union, elem_of_singleton, elem_of_list_to_set.
    intros H. apply E. by apply elem_of_cons.
Qed.

Lemma parse_args_command (flags : list string) (cmd : string)
    (rest : list string) :
  Forall (fun a => a ∈ Cli.WIEX_OPTIONS) flags -> cmd ∉ Cli.WIEX_OPTIONS ->
  Cli.parse_args (flags ++ cmd :: rest)
  = {| Cli.wiexArgs :=
         Cli.wiexArgs (after_flags {| Cli.wiexArgs := None;
                                      Cli.command := None;
                                      Cli.commandArgs := None |} flags);
       Cli.command := Some cmd; Cli.commandArgs := Some rest |}.
Proof.
  intros F Hcmd. unfold Cli.parse_args, JS.reduce.
  rewrite length_app. simpl length.
  set (args := flags ++ cmd :: rest).
  set (initial := {| Cli.wiexArgs := None; Cli.command := None;
                     Cli.commandArgs := None |}).
  assert (R : JS.reduce_from (Cli.callback args)
                (length flags + S (length rest)) 0 args initial
              = JS.reduce_from (Cli.callback args) (S (length rest))
                  (length flags) args (after_flags initial flags))
    by exact (reduce_from_flags args [] flags (cmd :: rest)
                (S (length rest)) initial F).
  rewrite R. clear R. subst args.
  rewrite (reduce_from_command _ _ _ _ _ cmd).
  - f_equal. f_equal.
    rewrite (cons_middle cmd flags rest), app_assoc.
    apply drop_app_length'. rewrite length_app. simpl. lia.
  - by rewrite lookup_app_r, Nat.sub_diag.
  - done.
Qed.

(** X9.  On every argument vector the parser gives what the usage line
    says: the tool flags are the tokens before the first token that is not
    one of the four flags; they make an options object (none when there is
    no flag) whose keys are those flags, each [true], however often and in
    whatever order they occur; that first other token is the command, the
    tokens after it are its arguments as they stand; with no such token
    there is neither command nor arguments, also when [argv] has fewer than
    two elements. *)
Theorem parse_follows_usage (argv : list string) :
  Cli.parse argv = usage (drop 2 argv).
Proof.
  unfold Cli.parse. generalize (drop 2 argv). intros args.
  destruct (split_at_command args) as (Hsplit & F & Hafter).
  unfold usage.
  set (flags := leading_flags args) in *.
  set (tail := after_leading_flags args) in *.
  clearbody flags tail. subst args.
  pose proof (after_flags_wiexArgs flags) as W.
  destruct Hafter as [-> | (cmd & rest & -> & Hcmd)].
  - rewrite app_nil_r, (parse_args_flags _ F). simpl.
    destruct flags as [| flag flags]; [done |].
    destruct (after_flags_fields
                {| Cli.wiexArgs := None; Cli.command := None;
                   Cli.commandArgs := None |} flag flags) as [m Hm].
    rewrite Hm in *. simpl in W. by rewrite W.
  - rewrite (parse_args_command _ _ _ F Hcmd), W. by destruct flags.
Qed.

(** The order and the number of occurrences of the flags do not matter. *)
Example repeated_flags :
  Cli.parse ["node"; "wiex"; "--verbose"; "--strict"; "--verbose"; "x"; "y"]
  = Cli.parse ["node"; "wiex"; "--strict"; "--verbose"; "x"; "y"].
Proof. vm_compute. reflexivity. Qed.

(** ** [cli] after the parser (lines 107 to 139) *)

Lemma undashed_names :
  ("version" ∉ Cli.WIEX_OPTIONS) /\ ("strict" ∉ Cli.WIEX_OPTIONS) /\
  ("verbose" ∉ Cli.WIEX_OPTIONS) /\ ("help" ∉ Cli.WIEX_OPTIONS).
Proof.
  repeat split; rewrite known_flags; intros [H | [H | [H | H]]];
    discriminate H.
Qed.

(** The options object has no key but the flags themselves. *)
Lemma after_flags_other_key (flags : list string) (k : string) :
  Forall (fun a => a ∈ Cli.WIEX_OPTIONS) flags -> k ∉ Cli.WIEX_OPTIONS ->
  Cli.wiexArgs (after_flags {| Cli.wiexArgs := None; Cli.command := None;
                               Cli.commandArgs := None |} flags)
    ≫= (.!! k) = None.
Proof.
  intros F Hk.
  pose proof (after_flags_lookup
                {| Cli.wiexArgs := None; Cli.command := None;
                   Cli.commandArgs := None |} flags k) as L.
  rewrite bool_decide_eq_false_2 in L.
  - simpl in L. rewrite lookup_empty in L.
    by destruct (Cli.wiexArgs (after_flags _ flags)).
  - intros Hin. rewrite Forall_forall in F. by apply Hk, F.
Qed.

Lemma after_flags_destructure (flags : list string) :
  Forall (fun a => a ∈ Cli.WIEX_OPTIONS) flags ->
  destructure
    (Cli.wiexArgs (after_flags {| Cli.wiexArgs := None; Cli.command := None;
                                  Cli.commandArgs := None |} flags))
  = no_options.
Proof.
  intros F. destruct undashed_names as (V & S & B & H).
  unfold destructure, no_options.
  by rewrite !(after_flags_other_key flags _ F).
Qed.

(** X10.  Without a command on the command line, whatever flags are
    given, [--version] included, [cli] prints the help text with
    [console.log], once, and ends the process with status 0; it spawns and
    logs nothing, and never prints the version. *)
Theorem cli_without_command_prints_help
    (version : string) (argv : list string) (lookup child : launch)
    (thrown : string) (e : gmap string string) :
  Forall (fun a => a ∈ Cli.WIEX_OPTIONS) (drop 2 argv) ->
  cli version argv lookup child thrown e
  = ([(console_log, helpText)], process_exit 0 (boot e)).
Proof.
  intros F. destruct undashed_names as (V & _ & _ & H).
  unfold cli, Cli.parse.
  rewrite (parse_args_flags _ F).
  rewrite !(after_flags_other_key _ _ F) by done.
  cbn [JS.truthy_boolean].
  destruct (drop 2 argv) as [| flag flags]; [done |].
  by destruct (after_flags_fields
                 {| Cli.wiexArgs := None; Cli.command := None;
                    Cli.commandArgs := None |} flag flags) as [m ->].
Qed.

Lemma cli_without_command_prints_help_witness :
  Forall (fun a => a ∈ Cli.WIEX_OPTIONS)
    (drop 2 ["node"; "wiex"; "--version"]) /\
  cli "0.1.0" ["node"; "wiex"; "--version"] (Launched None) (Launched None)
    "thrown" example_env
  = ([(console_log, helpText)], process_exit 0 (boot example_env)).
Proof.
  assert (F : Forall (fun a => a ∈ Cli.WIEX_OPTIONS)
                (drop 2 ["node"; "wiex"; "--version"]))
    by (repeat constructor; apply bool_decide_unpack; vm_compute; exact I).
  split; [exact F |].
  exact (cli_without_command_prints_help "0.1.0" ["node"; "wiex"; "--version"]
           (Launched None) (Launched None) "thrown" example_env F).
Defined.

(** What [cli] does with a command: the call of [wiex] with no option set,
    then the [catch] handler. *)
Lemma cli_with_command version node script flags cmd rest lookup child
    thrown e :
  Forall (fun a => a ∈ Cli.WIEX_OPTIONS) flags -> cmd ∉ Cli.WIEX_OPTIONS ->
  cli version (node :: script :: flags ++ cmd :: rest) lookup child thrown e
  = let '(h, returned) :=
      wiex {| command := cmd; commandArgs := Some rest |} no_options
        lookup child (boot e) in
    match process_exited h with
    | Some _ => ([], h)
    | None =>
        let '(h, caught) := new_promise Pending h in
        match promises h !! returned with
        | Some Rejected => ([], process_exit 1 (log Error thrown h))
        | Some Resolved => ([], settle caught Resolved h)
        | _ => ([], h)
        end
    end.
Proof.
  intros F Hcmd. destruct undashed_names as (V & _ & _ & H).
  unfold cli.
  change (Cli.parse (node :: script :: flags ++ cmd :: rest))
    with (Cli.parse_args (flags ++ cmd :: rest)).
  rewrite (parse_args_command _ _ _ F Hcmd).
  cbn [Cli.wiexArgs Cli.command Cli.commandArgs].
  rewrite !(after_flags_other_key _ _ F) by done.
  by rewrite (after_flags_destructure _ F).
Qed.

(** X11.  The tool flags before the command have no effect: with any of
    [--version], [--strict], [--verbose] and [--help] before it, any number
    of times, [cli] does exactly what it does for the command and its
    arguments alone, and the options [wiex] then reads, [strict] and
    [verbose], are unset. *)
Theorem cli_flags_have_no_effect
    (version node script : string) (flags : list string) (cmd : string)
    (rest : list string) (lookup child : launch) (thrown : string)
    (e : gmap string string) :
  Forall (fun a => a ∈ Cli.WIEX_OPTIONS) flags -> cmd ∉ Cli.WIEX_OPTIONS ->
  cli version (node :: script :: flags ++ cmd :: rest) lookup child thrown e
  = cli version (node :: script :: cmd :: rest) lookup child thrown e /\
  destructure
    (Cli.wiexArgs (Cli.parse (node :: script :: flags ++ cmd :: rest)))
  = no_options.
Proof.
  intros F Hcmd. split.
  - rewrite (cli_with_command _ _ _ flags cmd rest _ _ _ _ F Hcmd).
    by rewrite (cli_with_command _ _ _ [] cmd rest _ _ _ _
                  (Forall_nil_2 _) Hcmd).
  - change (Cli.parse (node :: script :: flags ++ cmd :: rest))
      with (Cli.parse_args (flags ++ cmd :: rest)).
    rewrite (parse_args_command _ _ _ F Hcmd).
    cbn [Cli.wiexArgs]. by apply after_flags_destructure.
Qed.

Lemma cli_flags_have_no_effect_witness :
  let flags := ["--strict"; "--version"; "--verbose"] in
  Forall (fun a => a ∈ Cli.WIEX_OPTIONS) flags /\
  ("cargo.exe" ∉ Cli.WIEX_OPTIONS) /\
  cli "0.1.0" ("node" :: "wiex" :: flags ++ "cargo.exe" :: ["build"])
    (Launched None) (Launched (Some 7%Z)) "thrown" example_env
  = cli "0.1.0" ("node" :: "wiex" :: "cargo.exe" :: ["build"])
      (Launched None) (Launched (Some 7%Z)) "thrown" example_env /\
  destructure
    (Cli.wiexArgs
       (Cli.parse ("node" :: "wiex" :: flags ++ "cargo.exe" :: ["build"])))
  = no_options.
Proof.
  assert (F : Forall (fun a => a ∈ Cli.WIEX_OPTIONS)
                ["--strict"; "--version"; "--verbose"])
    by (repeat constructor; apply bool_decide_unpack; vm_compute; exact I).
  assert (N : "cargo.exe" ∉ Cli.WIEX_OPTIONS)
    by (apply (bool_decide_unpack _); vm_compute; exact I).
  split; [exact F |]. split; [exact N |].
  exact (cli_flags_have_no_effect "0.1.0" "node" "wiex"
           ["--strict"; "--version"; "--verbose"] "cargo.exe" ["build"]
           (Launched None) (Launched (Some 7%Z)) "thrown" example_env F N).
Defined.

(** The host [cli] leaves behind when both children are launched. *)
Lemma cli_launched version node script flags cmd rest pw pp thrown e :
  Forall (fun a => a ∈ Cli.WIEX_OPTIONS) flags -> cmd ∉ Cli.WIEX_OPTIONS ->
  cli version (node :: script :: flags ++ cmd :: rest) (Launched pw)
    (Launched pp) thrown e
  = ([],
     let message := commandNotExistErrorMessage cmd in
     {| process_env := e; process_exitCode := None; process_exited := None;
        logged := WIEX_PATH_check e;
        spawns :=
          [(where_call cmd, Launched pw);
           (proc_call {| command := cmd; commandArgs := Some rest |} e
              (e !! "PATH") (e !! "WIEX_PATH"), Launched pp)];
        listeners :=
          [(0%nat, "close", where_close message);
           (0%nat, "error", where_error message);
           (1%nat, "exit", proc_exit None);
           (1%nat, "disconnect", proc_disconnect None pp);
           (1%nat, "close", proc_close None pp)];
        pipes := [(1%nat, stdout, outStream); (1%nat, stderr, errStream)];
        written := [];
        promises := [Resolved; Resolved] |}).
Proof.
  intros F Hcmd. rewrite (cli_with_command _ _ _ _ _ _ _ _ _ _ F Hcmd).
  by rewrite wiex_launched.
Qed.



(** X13.  From the command line the tool always runs lenient and quiet,
    [--strict] and [--verbose] or not: after [cli] has launched both
    children and any later events, in a process still running, a target
    that exits with a null code or disconnects gets its line printed with
    [console.warn], and a target that closes gets nothing printed. *)
Theorem cli_is_always_lenient_and_quiet
    (version node script : string) (flags : list string) (cmd : string)
    (rest : list string) (pw pp : option Z) (thrown : string)
    (e : gmap string string) (post : list step)
    (ev : event) (text : string) (code : option Z) :
  let started :=
    cli version (node :: script :: flags ++ cmd :: rest) (Launched pw)
      (Launched pp) thrown e in
  let h := run post started.2 in
  Forall (fun a => a ∈ Cli.WIEX_OPTIONS) flags -> cmd ∉ Cli.WIEX_OPTIONS ->
  process_exited h = None ->
  ev = Exit None /\ text = "exit code is unknown" \/
  ev = Disconnect /\
    text = "process " +:+ JS.string_of_number pp +:+ " disconnected." ->
  console started.1 (emit 1 ev h)
  = console started.1 h ++ [(console_warn, text)] /\
  emit 1 (Close code) h = h.
Proof.
  intros started h F Hcmd Lh Hev. subst h started.
  rewrite (cli_launched _ _ _ _ _ _ _ _ _ _ F Hcmd) in *.
  cbn [fst snd] in *.
  match goal with |- context [run post ?x] => set (h1 := x) in * end.
  set (h := run post h1) in *.
  pose proof (run_grows post h1) as G.
  assert (S : spawns h !! 1%nat
              = Some (proc_call {| command := cmd; commandArgs := Some rest |}
                        e (e !! "PATH") (e !! "WIEX_PATH"), Launched pp))
    by (by apply (grows_spawns _ _ _ _ G)).
  assert (W : (1 < length (spawns h1))%nat) by (simpl; lia).
  assert (X : listeners_for 1 "exit" (listeners h) = [proc_exit None])
    by (subst h; by rewrite (grows_listeners_for _ _ _ _ G W)).
  assert (D : listeners_for 1 "disconnect" (listeners h)
              = [proc_disconnect None pp])
    by (subst h; by rewrite (grows_listeners_for _ _ _ _ G W)).
  assert (C : listeners_for 1 "close" (listeners h) = [proc_close None pp])
    by (subst h; by rewrite (grows_listeners_for _ _ _ _ G W)).
  split.
  - unfold emit. rewrite S.
    destruct Hev as [[-> ->] | [-> ->]]; simpl; rewrite ?X, ?D; simpl;
      rewrite Lh; unfold console; simpl; by rewrite map_app.
  - unfold emit. rewrite S. simpl. rewrite C. simpl. by rewrite Lh.
Qed.

Lemma cli_is_always_lenient_and_quiet_witness :
  let started :=
    cli "0.1.0" ("node" :: "wiex" :: ["--strict"; "--verbose"]
                   ++ "cargo.exe" :: ["build"])
      (Launched None) (Launched (Some 7%Z)) "thrown" example_env in
  let h := run [Emit 1 (Data stdout "x")] started.2 in
  Forall (fun a => a ∈ Cli.WIEX_OPTIONS) ["--strict"; "--verbose"] /\
  ("cargo.exe" ∉ Cli.WIEX_OPTIONS) /\
  process_exited h = None /\
  console started.1 (emit 1 (Exit None) h)
  = console started.1 h ++ [(console_warn, "exit code is unknown")] /\
  emit 1 (Close (Some 0%Z)) h = h.
Proof.
  assert (F : Forall (fun a => a ∈ Cli.WIEX_OPTIONS)
                ["--strict"; "--verbose"])
    by (repeat constructor; apply bool_decide_unpack; vm_compute; exact I).
  assert (N : "cargo.exe" ∉ Cli.WIEX_OPTIONS)
    by (apply (bool_decide_unpack _); vm_compute; exact I).
  split; [exact F |]. split; [exact N |]. split; [reflexivity |].
  exact (cli_is_always_lenient_and_quiet "0.1.0" "node" "wiex"
           ["--strict"; "--verbose"] "cargo.exe" ["build"] None (Some 7%Z)
           "thrown" example_env [Emit 1 (Data stdout "x")] (Exit None)
           "exit code is unknown" (Some 0%Z) F N eq_refl
           (or_introl (conj eq_refl eq_refl))).
Defined.

(** ** The lookup racing the target (lines 53 to 83) *)

(** X14.  The lookup and the target run side by side.  When the target
    has already exited with code [c] and the lookup then fails, in a process
    still running, [process.exitCode] holds [c] but the process ends with
    status 1: the lookup's verdict wins over the relayed exit code. *)
Theorem late_lookup_failure_overrides_exit_code
    (e : gmap string string) (pre post : list step)
    (r : Invocation) (o : WiexOptions) (pw pp : option Z) (c : Z)
    (ev : event) :
  let h0 := run pre (boot e) in
  let where_ := length (spawns h0) in
  let proc := S (length (spawns h0)) in
  let h := run (pre ++ Call r o (Launched pw) (Launched pp) :: post) (boot e) in
  let h' := emit where_ ev (emit proc (Exit (Some c)) h) in
  process_exited h = None -> lookup_failed ev ->
  process_exitCode h' = Some c /\
  process_exited h' = Some 1%Z /\
  logged h' = logged h ++ [(Error, commandNotExistErrorMessage (command r))].
Proof.
  intros h0 where_ proc h h' Lh F. subst h'.
  assert (L : process_exited h0 = None).
  { subst h. rewrite run_app in Lh. by apply live_before in Lh. }
  set (post' := post ++ [Emit proc (Exit (Some c))]).
  assert (H1 : emit proc (Exit (Some c)) h
               = run (pre ++ Call r o (Launched pw) (Launched pp) :: post')
                   (boot e)).
  { subst post'.
    change (pre ++ Call r o (Launched pw) (Launched pp)
              :: post ++ [Emit proc (Exit (Some c))])
      with (pre ++ (Call r o (Launched pw) (Launched pp) :: post)
              ++ [Emit proc (Exit (Some c))]).
    rewrite app_assoc, run_app. fold h.
    change (run [Emit proc (Exit (Some c))] h)
      with (do_step h (Emit proc (Exit (Some c)))).
    unfold do_step. by rewrite Lh. }
  destruct (target_child e pre post r o pw pp L) as (S & X & _).
  destruct (lookup_child e pre post' r o pw (Launched pp) L) as (S' & C & E).
  fold h in S, X. fold h0 in S, X, S', C, E. fold proc in S, X.
  fold where_ in S', C, E. rewrite <- H1 in S', C, E.
  assert (V : emit proc (Exit (Some c)) h
              = fst (new_promise Resolved (set_exitCode c h))).
  { unfold emit. rewrite S. simpl. rewrite X. simpl. by rewrite Lh. }
  assert (L1 : process_exited (emit proc (Exit (Some c)) h) = None)
    by (rewrite V; exact Lh).
  assert (R : emit where_ ev (emit proc (Exit (Some c)) h)
              = process_exit 1
                  (log Error (commandNotExistErrorMessage (command r))
                     (emit proc (Exit (Some c)) h))).
  { unfold emit at 1. rewrite S'.
    destruct F as [| z Hz Hne |]; simpl; rewrite ?C, ?E; simpl;
      rewrite ?(proj2 (Z.ltb_lt 0 z)) by lia; by rewrite L1. }
  rewrite R, V. by host_fields.
Qed.

Lemma late_lookup_failure_overrides_exit_code_witness :
  let h := run ([] ++ Call cargo lenient (Launched None)
                         (Launched (Some 7%Z)) :: [Emit 1 (Data stdout "x")])
              (boot example_env) in
  let h' := emit 0 Failure (emit 1 (Exit (Some 0%Z)) h) in
  process_exited h = None /\ lookup_failed Failure /\
  process_exitCode h' = Some 0%Z /\
  process_exited h' = Some 1%Z /\
  logged h' = logged h ++ [(Error, "Error: cargo.exe not found")].
Proof.
  split; [reflexivity |]. split; [constructor |].
  exact (late_lookup_failure_overrides_exit_code example_env []
           [Emit 1 (Data stdout "x")] cargo lenient None (Some 7%Z) 0%Z
           Failure eq_refl launch_failed).
Defined.
